(** * Vec: index sort, in-place reordering and set filters of [src/vec.h]

    A shallow embedding of the function templates of namespace [Vec] and the
    properties of their specification.

    - [std::vector<T>] is a [list T]; [v[i]] is the list lookup [v !! i] and
      an assignment to [v[i]] is [<[i:=x]> v].  Indexing a vector outside its
      bounds is undefined behaviour in C++: the model stops with [Undefined].
    - [while] and open [for] loops run on fuel: every loop may test its
      condition [fuel] times and yields [OutOfFuel] when that is exceeded, so
      that a loop that never exits is one that is out of fuel for every fuel.
    - [size_t] values are natural numbers; the only arithmetic on them is
      [++i] below the length of a vector, which does not wrap. *)

From stdpp Require Import sorting gmap gmultiset list.

Open Scope Z_scope.
Open Scope nat_scope.

(* [set_solver] clears hypotheses by name, some of them already gone. *)
#[local] Set Warnings "-clear-no-such-hyp".

(** ** Results of a run *)

Inductive outcome (A : Type) : Type :=
  | Done (a : A)
  | Undefined
  | OutOfFuel.
Arguments Done {A} a.
Arguments Undefined {A}.
Arguments OutOfFuel {A}.

#[global] Instance outcome_bind : MBind outcome := λ A B f m,
  match m with
  | Done a => f a
  | Undefined => Undefined
  | OutOfFuel => OutOfFuel
  end.

(** An element access [l[i]]: undefined outside the bounds. *)
Definition load {A} (l : list A) (i : nat) : outcome A :=
  match l !! i with
  | Some x => Done x
  | None => Undefined
  end.

(** An element assignment [l[i] = x]: undefined outside the bounds. *)
Definition store {A} (l : list A) (i : nat) (x : A) : outcome (list A) :=
  if decide (i < length l) then Done (<[i:=x]> l) else Undefined.

(** [for (i = 0; i < n; ++i) body], with [n] fixed before the loop, over the
    indices [idxs = seq 0 n]. *)
Fixpoint for_each {S} (body : S → nat → outcome S) (st : S) (idxs : list nat)
    : outcome S :=
  match idxs with
  | [] => Done st
  | i :: idxs => st' ← body st i; for_each body st' idxs
  end.

(** ** [reorder] *)

Section reorder.
Context {T : Type}.

(** [std::swap(v[a], v[b])] *)
Definition swap_at (v : list T) (a b : nat) : outcome (list T) :=
  x ← load v a;
  y ← load v b;
  v1 ← store v a y;
  store v1 b x.

(** The [while (i != j)] loop of [reorder]; the state is [v], [done],
    [prev_j] and [j]. *)
Fixpoint reorder_cycle (fuel : nat) (order : list nat) (i : nat)
    (v : list T) (done : list bool) (prev_j j : nat)
    : outcome (list T * list bool) :=
  match fuel with
  | O => OutOfFuel
  | S fuel =>
      if decide (i = j) then Done (v, done)
      else
        v1 ← swap_at v prev_j j;
        done1 ← store done j true;
        j1 ← load order j;
        reorder_cycle fuel order i v1 done1 j j1
  end.

(** The body of the [for] loop of [reorder]. *)
Definition reorder_body (fuel : nat) (order : list nat)
    (st : list T * list bool) (i : nat) : outcome (list T * list bool) :=
  let '(v, done) := st in
  b ← load done i;
  if b : bool then Done (v, done)
  else
    done1 ← store done i true;
    j ← load order i;
    reorder_cycle fuel order i v done1 i j.

(** [reorder(v, order)]: both arguments are passed by reference, so the
    result is the pair of their contents when the call returns. *)
Definition reorder (fuel : nat) (v : list T) (order : list nat)
    : outcome (list T * list nat) :=
  '(v', _) ← for_each (reorder_body fuel order)
                (v, replicate (length v) false) (seq 0 (length v));
  Done (v', order).
End reorder.

(** ** [reorder_destructive] *)

(** The order buffer holds values of the iterator's [index_t], here integers.
    [neg1] is the value that [(diff_t) -1] takes in [index_t]: [-1] for a
    signed index type, [2^w - 1] for an unsigned one as wide as [diff_t]
    (for a narrower unsigned one [d == (diff_t) -1] compares after promotion
    and is never true; such index types are not modelled).
    The counter [remaining] is a [diff_t]; it stays between [-1] and the
    length of the buffer, so it does not wrap.  [s] only counts up from
    [index_t()], which is zero, and is kept as a natural number. *)

Section reorder_destructive.
Context {T : Type}.
Variable neg1 : Z.

(** [l[d]] for an index [d] of type [index_t] *)
Definition zload {A} (l : list A) (d : Z) : outcome A :=
  if decide (0 ≤ d)%Z then load l (Z.to_nat d) else Undefined.

Definition zstore {A} (l : list A) (d : Z) (x : A) : outcome (list A) :=
  if decide (0 ≤ d)%Z then store l (Z.to_nat d) x else Undefined.

(** The inner loop [for (index_t d2; d != s; d = d2)]; the state is
    [order], [v], [remaining], [temp] and [d]. *)
Fixpoint destructive_cycle (fuel : nat) (s : nat) (order : list Z)
    (v : list T) (remaining : Z) (temp : T) (d : Z)
    : outcome (list Z * list T * Z * T) :=
  match fuel with
  | O => OutOfFuel
  | S fuel =>
      if decide (d = Z.of_nat s) then Done (order, v, remaining, temp)
      else
        (* std::swap(temp, v[d]) *)
        x ← zload v d;
        v1 ← zstore v d temp;
        (* std::swap(order_begin[d], d2 = (diff_t) -1) *)
        d2 ← zload order d;
        order1 ← zstore order d neg1;
        destructive_cycle fuel s order1 v1 (remaining - 1)%Z x d2
  end.

(** The outer loop [for (index_t s = index_t(); remaining > 0; ++s)];
    [cfuel] is the fuel of each inner loop. *)
Fixpoint destructive_scan (fuel cfuel : nat) (s : nat) (order : list Z)
    (v : list T) (remaining : Z) : outcome (list Z * list T) :=
  match fuel with
  | O => OutOfFuel
  | S fuel =>
      if decide (0 < remaining)%Z then
        d ← load order s;
        if decide (d = neg1) then
          destructive_scan fuel cfuel (S s) order v remaining
        else
          temp ← load v s;
          '(order1, v1, remaining1, temp1) ←
            destructive_cycle cfuel s order v (remaining - 1)%Z temp d;
          v2 ← store v1 s temp1;
          destructive_scan fuel cfuel (S s) order1 v2 remaining1
      else Done (order, v)
  end.

(** [reorder_destructive(order_begin, order_end, v)] on the buffer [order]
    between the two iterators and the buffer [v]; the result is the pair of
    their contents when the call returns. *)
Definition reorder_destructive (fuel : nat) (order : list Z) (v : list T)
    : outcome (list Z * list T) :=
  destructive_scan fuel fuel 0 order v (Z.of_nat (length order) - 1)%Z.
End reorder_destructive.

(** ** [sort_indices] *)

(** [std::stable_sort] is the standard library's.  On a comparator that is a
    strict weak ordering its result is fixed by the standard: the sorted
    arrangement in which equivalent elements keep their input order.  It is
    modelled by insertion from the right, which computes that arrangement
    ([stable_sort_unique] below: no other list meets the contract). *)

Section stable_sort.
Context {A : Type} (comp : A → A → bool).

Fixpoint insert_stable (x : A) (l : list A) : list A :=
  match l with
  | [] => [x]
  | y :: l' => if comp y x then y :: insert_stable x l' else x :: y :: l'
  end.

Definition stable_sort (l : list A) : list A := foldr insert_stable [] l.
End stable_sort.

Section sort_indices.
Context {T : Type} (ltb : T → T → bool).

(** The comparator [[&v](size_t i1, size_t i2) {return v[i1] < v[i2];}].
    It is only ever called on entries of [idx], which are indices of [v]. *)
Definition key_less (v : list T) (i1 i2 : nat) : bool :=
  match v !! i1, v !! i2 with
  | Some a, Some b => ltb a b
  | _, _ => false
  end.

(** [std::iota(idx.begin(), idx.end(), 0)] on a vector of [v.size()]
    entries is [seq 0 (length v)]. *)
Definition sort_indices (v : list T) : list nat :=
  stable_sort (key_less v) (seq 0 (length v)).
End sort_indices.

(** ** [remove_intersection] *)

(** The multiset [st] is a [std::unordered_multiset<int>] and the predicate
    takes a [const int&] whatever [T] is: every element goes through the
    conversion [to_int] from [T] to [int] before it is counted. *)

Section remove_intersection.
Context {T : Type} (to_int : T → Z).

(** [st.insert(first, last)] *)
Definition insert_range (st : gmultiset Z) (l : list T) : gmultiset Z :=
  st ⊎ list_to_set_disj (to_int <$> l).

(** [[&st](const int& k){ return st.count(k) > 1; }] *)
Definition in_both (st : gmultiset Z) (k : T) : bool :=
  bool_decide (1 < multiplicity (to_int k) st).

(** [remove_intersection(a, b)]: both vectors are passed by reference, the
    result is the pair of their contents when the call returns.
    [a.erase(remove_if(a.begin(), a.end(), p), a.end())] keeps, in order,
    the elements on which [p] is false. *)
Definition remove_intersection (a b : list T) : list T * list T :=
  let st := insert_range (insert_range ∅ a) b in
  (filter (λ k, in_both st k = false) a, b).
End remove_intersection.

(** ** [RemoveDuplicates] *)

(** [std::set<T>] is a finite set of [T], for a countable [T] on which the
    equivalence of [<] is equality. *)

Section RemoveDuplicates.
Context `{Countable T}.

(** [std::remove_if] with a predicate that carries state: the predicate is
    applied once to each element, from the first to the last, and the
    elements on which it is false are kept in order. *)
Fixpoint remove_if {S} (pred : S → T → bool * S) (st : S) (l : list T)
    : list T * S :=
  match l with
  | [] => ([], st)
  | x :: l' =>
      let '(b, st1) := pred st x in
      let '(r, st2) := remove_if pred st1 l' in
      (if b then r else x :: r, st2)
  end.

(** The lambda of [RemoveDuplicates], on the set [seen] it captures. *)
Definition seen_before (seen : gset T) (value : T) : bool * gset T :=
  if decide (value ∈ seen) then (true, seen)
  else (false, {[value]} ∪ seen).

(** [RemoveDuplicates(v)]: the contents of [v] when the call returns, and
    the returned [v.size()]. *)
Definition RemoveDuplicates (v : list T) : list T * nat :=
  let v' := (remove_if seen_before ∅ v).1 in
  (v', length v').
End RemoveDuplicates.

(** ** Vocabulary of the specification *)

(** A permutation of [[0, n)], given by its table: [n] pairwise different
    entries below [n]. *)
Definition bijection (n : nat) (order : list nat) : Prop :=
  length order = n ∧ NoDup order ∧ Forall (λ j, j < n) order.

#[global] Instance bijection_dec n order : Decision (bijection n order).
Proof. unfold bijection. apply _. Defined.

(** The same table as the destructive variant receives it, in [index_t]. *)
Definition as_index (order : list nat) : list Z := Z.of_nat <$> order.

(** [q] is the inverse table of [p]. *)
Definition inverse_of (p q : list nat) : Prop :=
  ∀ i j, q !! i = Some j → p !! j = Some i.

(** [walk order m k] is the index reached from [k] after [m] steps along
    [order]; the indices so reached are the cycle of [k]. *)
Fixpoint walk (order : list nat) (m k : nat) : option nat :=
  match m with
  | O => Some k
  | S m => j ← walk order m k; order !! j
  end.

(** [k] is the smallest index of its cycle. *)
Definition cycle_min (order : list nat) (k : nat) : Prop :=
  ∀ m j, walk order m k = Some j → k ≤ j.

(** [a] stands at an earlier position of [idx] than [b]. *)
Definition appears_before {A} (a b : A) (idx : list A) : Prop :=
  ∃ p q, p < q ∧ idx !! p = Some a ∧ idx !! q = Some b.

(** [x <= y] for a type that only has [<]. *)
Definition leb_of {T} (ltb : T → T → bool) (x y : T) : bool := negb (ltb y x).

(** The keys read through [idx] never decrease from a position to a later
    one. *)
Definition nondecreasing_through {T} (ltb : T → T → bool) (keys : list T)
    (idx : list nat) : Prop :=
  ∀ p q i j, p < q → idx !! p = Some i → idx !! q = Some j →
    ∃ x y, keys !! i = Some x ∧ keys !! j = Some y ∧ leb_of ltb x y = true.

(** The requirement of [std::stable_sort] on its comparator, a strict weak
    ordering, in terms of [<] and the [<=] derived from it. *)
Record strict_weak_order {T} (ltb : T → T → bool) : Prop := {
  swo_asym : ∀ x y, ltb x y = true → ltb y x = false;
  swo_le_trans : ∀ x y z,
    leb_of ltb x y = true → leb_of ltb y z = true → leb_of ltb x z = true
}.

(** The words of the specification for [remove_duplicates]: an element is
    removed when its value has already appeared earlier in [v], and kept
    otherwise. *)
Definition without_earlier_seen `{EqDecision T} (v : list T) : list T :=
  omap (λ i, x ← v !! i; if decide (x ∈ take i v) then None else Some x)
       (seq 0 (length v)).

(** The number of entries of a marker array that are still unmarked. *)
Definition unmarked (done : list bool) : nat :=
  length (filter (λ b, b = false) done).

(** ** Loop invariants *)

(** The [for] loop of [reorder] at index [i], for the table [o] and the
    initial contents [v0]: the marked positions are closed under [o] in both
    directions and hold their final values, the others still hold their
    initial ones. *)
Record reorder_inv {T} (n : nat) (o : list nat) (v0 : list T)
    (i : nat) (v : list T) (done : list bool) : Prop := {
  ri_len_v : length v = n;
  ri_len_done : length done = n;
  ri_below : ∀ k, k < i → k < n → done !! k = Some true;
  ri_placed : ∀ k, done !! k = Some true →
    ∃ j, o !! k = Some j ∧ done !! j = Some true ∧ v !! k = v0 !! j;
  ri_back : ∀ k j, o !! k = Some j → done !! j = Some true →
    done !! k = Some true;
  ri_rest : ∀ k, done !! k = Some false → v !! k = v0 !! k
}.

(** The [while] loop of [reorder] on the cycle of [i]: the value that was at
    [i] travels along the cycle and is now at [prev_j]. *)
Record cycle_inv {T} (n : nat) (o : list nat) (v0 : list T)
    (i : nat) (v : list T) (done : list bool) (prev_j j : nat) : Prop := {
  ci_len_v : length v = n;
  ci_len_done : length done = n;
  ci_below : ∀ k, k < i → k < n → done !! k = Some true;
  ci_start : done !! i = Some true;
  ci_prev : done !! prev_j = Some true;
  ci_next : o !! prev_j = Some j;
  ci_held : v !! prev_j = v0 !! i;
  ci_placed : ∀ k, done !! k = Some true → k ≠ prev_j →
    ∃ j', o !! k = Some j' ∧ done !! j' = Some true ∧ v !! k = v0 !! j';
  ci_back : ∀ k j', o !! k = Some j' → done !! j' = Some true → j' ≠ i →
    done !! k = Some true ∧ k ≠ prev_j;
  ci_rest : ∀ k, done !! k = Some false → v !! k = v0 !! k
}.

(** The outer loop of [reorder_destructive] at index [s].  The buffer has no
    marker array; [pd] is the set of positions the run has dealt with so
    far, kept for the proof only.  A dealt-with position holds [neg1] in
    [order] unless it is the first index of its cycle. *)
Record scan_inv {T} (neg1 : Z) (n : nat) (o : list nat) (v0 : list T)
    (s : nat) (order : list Z) (v : list T) (remaining : Z)
    (pd : list bool) : Prop := {
  si_len_v : length v = n;
  si_len_order : length order = n;
  si_len_pd : length pd = n;
  si_below : ∀ k, k < s → k < n → pd !! k = Some true;
  si_placed : ∀ k, pd !! k = Some true →
    ∃ j, o !! k = Some j ∧ pd !! j = Some true ∧ v !! j = v0 !! k;
  si_back : ∀ k j, o !! k = Some j → pd !! j = Some true →
    pd !! k = Some true;
  si_rest : ∀ k, pd !! k = Some false →
    v !! k = v0 !! k ∧ order !! k = Z.of_nat <$> o !! k;
  si_order : ∀ k, pd !! k = Some true →
    (order !! k = Some neg1 ∧ ¬ cycle_min o k)
    ∨ (k < s ∧ order !! k = Z.of_nat <$> o !! k ∧ cycle_min o k);
  si_remaining : remaining = (Z.of_nat (unmarked pd) - 1)%Z
}.

(** The inner loop of [reorder_destructive] on the cycle of [s]: [temp] is
    the initial value of position [pred], on its way to [j = o[pred]]. *)
Record dcycle_inv {T} (neg1 : Z) (n : nat) (o : list nat) (v0 : list T)
    (s : nat) (order : list Z) (v : list T) (remaining : Z) (temp : T)
    (j : nat) (pd : list bool) (pred : nat) : Prop := {
  di_len_v : length v = n;
  di_len_order : length order = n;
  di_len_pd : length pd = n;
  di_below : ∀ k, k < s → k < n → pd !! k = Some true;
  di_start : pd !! s = Some true;
  di_pred : pd !! pred = Some true;
  di_next : o !! pred = Some j;
  di_temp : v0 !! pred = Some temp;
  di_placed : ∀ k, pd !! k = Some true → k ≠ pred →
    ∃ j', o !! k = Some j' ∧ pd !! j' = Some true ∧ j' ≠ s
          ∧ v !! j' = v0 !! k;
  di_back : ∀ k j', o !! k = Some j' → pd !! j' = Some true → j' ≠ s →
    pd !! k = Some true ∧ k ≠ pred;
  di_rest : ∀ k, pd !! k = Some false →
    v !! k = v0 !! k ∧ order !! k = Z.of_nat <$> o !! k;
  di_order : ∀ k, pd !! k = Some true →
    (order !! k = Some neg1
       ∧ (¬ cycle_min o k ∨ (s < k ∧ ∃ m, walk o m k = Some pred)))
    ∨ (k ≤ s ∧ order !! k = Z.of_nat <$> o !! k ∧ cycle_min o k);
  di_remaining : remaining = (Z.of_nat (unmarked pd) - 1)%Z
}.

(** ** What a completed run of [reorder] has checked *)

(** Between two rounds of the [for] loop of [reorder], on any [order]
    whatever: a marked position has been read from [order], its entry lies
    inside [v], and it is itself the entry of a position of [v]. *)
Record visited_inv (n : nat) (order : list nat) (done : list bool) : Prop := {
  vi_len : length done = n;
  vi_read : ∀ k, done !! k = Some true → ∃ j, order !! k = Some j ∧ j < n;
  vi_pre : ∀ k, done !! k = Some true → ∃ p, p < n ∧ order !! p = Some k
}.

(** Inside the [while] loop on the walk from [i]: the entry [j] of [prev_j]
    has been read and not yet used, and [i] still waits for the position
    that leads back to it. *)
Record walking_inv (n : nat) (order : list nat) (i : nat) (done : list bool)
    (prev_j j : nat) : Prop := {
  wi_len : length done = n;
  wi_start : done !! i = Some true;
  wi_prev : prev_j < n;
  wi_next : order !! prev_j = Some j;
  wi_read : ∀ k, done !! k = Some true → k ≠ prev_j →
    ∃ j', order !! k = Some j' ∧ j' < n;
  wi_pre : ∀ k, done !! k = Some true → k ≠ i →
    ∃ p, p < n ∧ order !! p = Some k
}.

(** The table of the composition: position [i] reads through [q] and then
    through [p]. *)
Definition compose_tables (p q : list nat) : list nat :=
  omap (λ j, p !! j) q.

(** ** The examples of the source and of the specification *)

Example reorder_doc_example :
  reorder 4 [1; 2; 3; 4] [2; 0; 3; 1] = Done ([3; 1; 4; 2], [2; 0; 3; 1]).
Proof. reflexivity. Qed.

Example destructive_example :
  reorder_destructive (-1) 5 [2; 0; 3; 1]%Z [1; 2; 3; 4]
  = Done ([2; -1; -1; -1]%Z, [2; 4; 1; 3]).
Proof. reflexivity. Qed.

Example sort_indices_doc_example :
  sort_indices Z.ltb [5; 4; 3; 2; 0; 1]%Z = [4; 5; 3; 2; 1; 0].
Proof. reflexivity. Qed.

Example remove_intersection_example :
  remove_intersection id [1; 2; 3; 4]%Z [2; 4; 5]%Z = ([1; 3]%Z, [2; 4; 5]%Z).
Proof. vm_compute. reflexivity. Qed.

Example remove_intersection_dups :
  remove_intersection id [1; 1]%Z [] = ([], []).
Proof. vm_compute. reflexivity. Qed.

Example RemoveDuplicates_example :
  RemoveDuplicates [1; 2; 1; 3; 2] = ([1; 2; 3], 3).
Proof. vm_compute. reflexivity. Qed.

(** ** Bookkeeping: results of accesses, tables of bijections, markers *)

Lemma load_Some {A} (l : list A) i x : l !! i = Some x → load l i = Done x.
Proof. unfold load. by intros ->. Qed.

Lemma store_lt {A} (l : list A) i x :
  i < length l → store l i x = Done (<[i:=x]> l).
Proof. unfold store. intros ?. by rewrite decide_True. Qed.

Section bijection_facts.
Variables (n : nat) (o : list nat).
Hypothesis Hbij : bijection n o.

Lemma bijection_lookup_lt k j : o !! k = Some j → k < n ∧ j < n.
Proof.
  destruct Hbij as (Hlen & _ & Hlt). intros Hk. split.
  - rewrite <- Hlen. by eapply lookup_lt_Some.
  - by eapply (proj1 (Forall_lookup _ _) Hlt).
Qed.

Lemma bijection_total k : k < n → ∃ j, o !! k = Some j ∧ j < n.
Proof.
  intros Hk. destruct Hbij as (Hlen & _ & _).
  destruct (lookup_lt_is_Some_2 o k) as [j Hj]; [lia|].
  exists j. split; [done|]. by eapply bijection_lookup_lt.
Qed.

Lemma bijection_inj a b j : o !! a = Some j → o !! b = Some j → a = b.
Proof. destruct Hbij as (_ & Hnd & _). by apply NoDup_lookup. Qed.

Lemma bijection_Permutation : o ≡ₚ seq 0 n.
Proof.
  destruct Hbij as (Hlen & Hnd & Hlt).
  apply submseteq_length_Permutation.
  - apply NoDup_submseteq; [done|]. intros x [i Hx]%list_elem_of_lookup_1.
    apply (proj1 (Forall_lookup _ _) Hlt) in Hx.
    apply elem_of_seq. lia.
  - rewrite length_seq. lia.
Qed.

Lemma bijection_surj j : j < n → ∃ k, o !! k = Some j.
Proof.
  intros Hj. apply list_elem_of_lookup_1.
  rewrite bijection_Permutation. apply elem_of_seq. lia.
Qed.
End bijection_facts.

Lemma unmarked_cons b done :
  unmarked (b :: done) = (if b then 0 else 1) + unmarked done.
Proof.
  unfold unmarked. destruct b.
  - by rewrite filter_cons_False by done.
  - by rewrite filter_cons_True by done.
Qed.

Lemma unmarked_le_length done : unmarked done ≤ length done.
Proof. unfold unmarked. apply length_filter. Qed.

Lemma unmarked_replicate n : unmarked (replicate n false) = n.
Proof.
  induction n as [|n IH]; [done|].
  change (replicate (S n) false) with (false :: replicate n false).
  rewrite unmarked_cons, IH. done.
Qed.

Lemma unmarked_mark done j :
  done !! j = Some false → S (unmarked (<[j:=true]> done)) = unmarked done.
Proof.
  revert j. induction done as [|b done IH]; intros [|j] Hj; simplify_eq/=.
  - by rewrite !unmarked_cons.
  - rewrite !unmarked_cons, <- (IH j) by done. lia.
Qed.

Lemma unmarked_pos done : 0 < unmarked done → ∃ k, done !! k = Some false.
Proof.
  induction done as [|b done IH]; [unfold unmarked; simpl; lia|].
  rewrite unmarked_cons. destruct b.
  - intros Hpos. destruct (IH Hpos) as [k Hk]. by exists (S k).
  - intros _. by exists 0.
Qed.

Lemma unmarked_lookup_pos done k : done !! k = Some false → 0 < unmarked done.
Proof.
  revert k. induction done as [|b done IH]; intros [|k] Hk; simplify_eq/=;
    rewrite unmarked_cons; [lia|].
  apply IH in Hk. lia.
Qed.

Lemma unmarked_unique done k k' :
  unmarked done ≤ 1 → done !! k = Some false → done !! k' = Some false →
  k = k'.
Proof.
  revert k k'.
  induction done as [|b done IH]; intros k k' Hle Hk Hk'; [done|].
  rewrite unmarked_cons in Hle.
  destruct k as [|k], k' as [|k']; simplify_eq/=; [done|..].
  - apply unmarked_lookup_pos in Hk'. lia.
  - apply unmarked_lookup_pos in Hk. lia.
  - f_equal. apply IH; [|done..]. destruct b; lia.
Qed.

(** ** [reorder] gathers *)

Section reorder_proof.
Context {T : Type}.
Variables (n : nat) (o : list nat) (v0 : list T).
Hypothesis Hbij : bijection n o.

Lemma cycle_inv_fresh i v done prev_j j :
  cycle_inv n o v0 i v done prev_j j → i ≠ j → done !! j = Some false.
Proof.
  intros Hinv Hij.
  destruct (bijection_lookup_lt n o Hbij _ _ (ci_next _ _ _ _ _ _ _ _ Hinv))
    as [_ Hj].
  destruct (lookup_lt_is_Some_2 done j) as [b Hb];
    [by rewrite (ci_len_done _ _ _ _ _ _ _ _ Hinv)|].
  destruct b; [|done].
  destruct (ci_back _ _ _ _ _ _ _ _ Hinv prev_j j) as [_ Hne];
    [apply Hinv|done|congruence|done].
Qed.

Lemma cycle_inv_step i v done prev_j j x y j1 :
  cycle_inv n o v0 i v done prev_j j → i ≠ j →
  v !! prev_j = Some x → v !! j = Some y → o !! j = Some j1 →
  cycle_inv n o v0 i (<[j:=x]> (<[prev_j:=y]> v)) (<[j:=true]> done) j j1.
Proof.
  intros Hinv Hij Hx Hy Hj1.
  pose proof (cycle_inv_fresh _ _ _ _ _ Hinv Hij) as Hfresh.
  destruct Hinv as [Hlv Hld Hbelow Hstart Hprev Hnext Hheld Hplaced Hback Hrest].
  destruct (bijection_lookup_lt n o Hbij _ _ Hnext) as [Hpn Hjn].
  assert (Hpj : prev_j ≠ j) by congruence.
  assert (Hmark : ∀ k, done !! k = Some true → <[j:=true]> done !! k = Some true).
  { intros k Hk. rewrite list_lookup_insert_ne; [done|congruence]. }
  split.
  - by rewrite !length_insert.
  - by rewrite length_insert.
  - intros k Hk Hkn. apply Hmark. by apply Hbelow.
  - by apply Hmark.
  - apply list_lookup_insert_eq. lia.
  - done.
  - rewrite list_lookup_insert_eq by (rewrite length_insert; lia).
    by rewrite <- Hheld.
  - intros k Hk Hkj. rewrite list_lookup_insert_ne in Hk by done.
    destruct (decide (k = prev_j)) as [->|Hkp].
    + exists j. split_and!; [done| |].
      * apply list_lookup_insert_eq. lia.
      * rewrite list_lookup_insert_ne by done.
        rewrite list_lookup_insert_eq by lia.
        rewrite <- (Hrest j Hfresh). done.
    + destruct (Hplaced k Hk Hkp) as (j' & Hj' & Hdj' & Hv).
      exists j'. split_and!; [done|by apply Hmark|].
      by rewrite !list_lookup_insert_ne by done.
  - intros k j' Hk Hdj' Hj'i.
    destruct (decide (j' = j)) as [->|Hne].
    + assert (k = prev_j) as -> by (by eapply bijection_inj).
      split; [by apply Hmark|done].
    + rewrite list_lookup_insert_ne in Hdj' by done.
      destruct (Hback k j' Hk Hdj' Hj'i) as [Hdk Hkp].
      split; [by apply Hmark|congruence].
  - intros k Hk.
    assert (k ≠ j).
    { intros ->. rewrite list_lookup_insert_eq in Hk by lia. done. }
    rewrite list_lookup_insert_ne in Hk by done.
    assert (k ≠ prev_j) by congruence.
    rewrite !list_lookup_insert_ne by done. by apply Hrest.
Qed.

Lemma cycle_inv_exit i v done prev_j :
  cycle_inv n o v0 i v done prev_j i → reorder_inv n o v0 (S i) v done.
Proof.
  intros [Hlv Hld Hbelow Hstart Hprev Hnext Hheld Hplaced Hback Hrest].
  split; try done.
  - intros k Hk Hkn. destruct (decide (k = i)) as [->|]; [done|].
    apply Hbelow; lia.
  - intros k Hk. destruct (decide (k = prev_j)) as [->|Hkp]; [|by apply Hplaced].
    by exists i.
  - intros k j Hk Hdj. destruct (decide (j = i)) as [->|Hji].
    + by assert (k = prev_j) as -> by (by eapply bijection_inj).
    + by apply (Hback k j).
Qed.

Lemma reorder_cycle_ok fuel i v done prev_j j :
  cycle_inv n o v0 i v done prev_j j → unmarked done < fuel →
  ∃ v' done', reorder_cycle fuel o i v done prev_j j = Done (v', done')
    ∧ reorder_inv n o v0 (S i) v' done'.
Proof.
  revert v done prev_j j.
  induction fuel as [|fuel IH]; intros v done prev_j j Hinv Hfuel; [lia|].
  simpl. destruct (decide (i = j)) as [<-|Hij].
  { exists v, done. split; [done|]. by eapply cycle_inv_exit. }
  pose proof (cycle_inv_fresh _ _ _ _ _ Hinv Hij) as Hfresh.
  destruct (bijection_lookup_lt n o Hbij _ _ (ci_next _ _ _ _ _ _ _ _ Hinv))
    as [Hpn Hjn].
  destruct (lookup_lt_is_Some_2 v prev_j) as [x Hx];
    [by rewrite (ci_len_v _ _ _ _ _ _ _ _ Hinv)|].
  destruct (lookup_lt_is_Some_2 v j) as [y Hy];
    [by rewrite (ci_len_v _ _ _ _ _ _ _ _ Hinv)|].
  destruct (bijection_total n o Hbij j Hjn) as (j1 & Hj1 & _).
  unfold swap_at.
  rewrite (load_Some _ _ _ Hx), (load_Some _ _ _ Hy). simpl.
  pose proof (ci_len_v _ _ _ _ _ _ _ _ Hinv) as Hlv.
  pose proof (ci_len_done _ _ _ _ _ _ _ _ Hinv) as Hld.
  repeat (rewrite store_lt by (rewrite ?length_insert; lia); simpl).
  rewrite (load_Some _ _ _ Hj1). simpl.
  apply IH.
  - by apply cycle_inv_step.
  - pose proof (unmarked_mark _ _ Hfresh). lia.
Qed.

Lemma reorder_body_ok fuel i v done :
  reorder_inv n o v0 i v done → i < n → n ≤ fuel →
  ∃ v' done', reorder_body fuel o (v, done) i = Done (v', done')
    ∧ reorder_inv n o v0 (S i) v' done'.
Proof.
  intros Hinv Hi Hfuel. unfold reorder_body.
  pose proof (ri_len_done _ _ _ _ _ _ Hinv) as Hld.
  destruct (lookup_lt_is_Some_2 done i) as [b Hb]; [lia|].
  rewrite (load_Some _ _ _ Hb). simpl. destruct b.
  { exists v, done. split; [done|].
    destruct Hinv as [Hlv _ Hbelow Hplaced Hback Hrest]. split; try done.
    intros k Hk Hkn. destruct (decide (k = i)) as [->|]; [done|].
    apply Hbelow; lia. }
  destruct (bijection_total n o Hbij i Hi) as (j & Hj & Hjn).
  rewrite store_lt by lia. simpl. rewrite (load_Some _ _ _ Hj). simpl.
  apply reorder_cycle_ok.
  - destruct Hinv as [Hlv _ Hbelow Hplaced Hback Hrest].
    assert (Hmark : ∀ k, done !! k = Some true →
                         <[i:=true]> done !! k = Some true).
    { intros k Hk. rewrite list_lookup_insert_ne; [done|congruence]. }
    split; try done.
    + by rewrite length_insert.
    + intros k Hk Hkn. apply Hmark. by apply Hbelow.
    + apply list_lookup_insert_eq. lia.
    + apply list_lookup_insert_eq. lia.
    + by apply Hrest.
    + intros k Hk Hki. rewrite list_lookup_insert_ne in Hk by done.
      destruct (Hplaced k Hk) as (j' & Hj' & Hdj' & Hv).
      exists j'. split_and!; [done|by apply Hmark|done].
    + intros k j' Hk Hdj' Hj'i. rewrite list_lookup_insert_ne in Hdj' by done.
      pose proof (Hback k j' Hk Hdj') as Hdk.
      split; [by apply Hmark|congruence].
    + intros k Hk.
      assert (k ≠ i).
      { intros ->. rewrite list_lookup_insert_eq in Hk by lia. done. }
      rewrite list_lookup_insert_ne in Hk by done. by apply Hrest.
  - pose proof (unmarked_mark _ _ Hb). pose proof (unmarked_le_length done).
    lia.
Qed.

Lemma reorder_loop_ok fuel m i v done :
  reorder_inv n o v0 i v done → i + m = n → n ≤ fuel →
  ∃ v' done',
    for_each (reorder_body fuel o) (v, done) (seq i m) = Done (v', done')
    ∧ reorder_inv n o v0 n v' done'.
Proof.
  revert i v done. induction m as [|m IH]; intros i v done Hinv Him Hfuel.
  { simpl. exists v, done. split; [done|].
    by replace i with n in Hinv by lia. }
  cbn [seq for_each].
  destruct (reorder_body_ok fuel i v done Hinv) as (v1 & done1 & -> & Hinv1);
    [lia..|].
  apply IH; [done|lia|done].
Qed.

Lemma reorder_inv_init :
  length v0 = n → reorder_inv n o v0 0 v0 (replicate n false).
Proof.
  intros Hlen. split; try done.
  - apply length_replicate.
  - lia.
  - by intros k [? _]%lookup_replicate.
  - by intros k j _ [? _]%lookup_replicate.
Qed.

Lemma reorder_inv_final v done k j :
  reorder_inv n o v0 n v done → o !! k = Some j → v !! k = v0 !! j.
Proof.
  intros [Hlv Hld Hbelow Hplaced Hback Hrest] Hk.
  destruct (bijection_lookup_lt n o Hbij _ _ Hk) as [Hkn Hjn].
  destruct (Hplaced k (Hbelow k Hkn Hkn)) as (j' & Hj' & _ & Hv).
  congruence.
Qed.
End reorder_proof.

(** What a run of [reorder] on a bijection gives: it returns, it leaves
    [order] as it was, and it gathers. *)
Lemma reorder_gathers {T} fuel (v : list T) order :
  bijection (length v) order → length v ≤ fuel →
  ∃ v', reorder fuel v order = Done (v', order)
    ∧ length v' = length v
    ∧ ∀ i j, order !! i = Some j → v' !! i = v !! j.
Proof.
  intros Hbij Hfuel. unfold reorder.
  destruct (reorder_loop_ok (length v) order v Hbij fuel (length v) 0 v
              (replicate (length v) false)) as (v' & done' & -> & Hinv);
    [by apply reorder_inv_init|done..|].
  simpl. exists v'. split_and!; [done|apply Hinv|].
  intros i j Hij. by eapply reorder_inv_final.
Qed.

(** A list that reads another one through an injective renaming of the
    positions holds the same values as often. *)
Lemma gather_Permutation {T} (v v' : list T) order :
  bijection (length v) order → length v' = length v →
  (∀ i j, order !! i = Some j → v' !! i = v !! j) →
  v' ≡ₚ v.
Proof.
  intros Hbij Hlen Hg. apply Permutation_inj. split; [done|].
  exists (λ i, default i (order !! i)). split.
  - intros a b Hab.
    destruct (order !! a) as [ja|] eqn:Ha, (order !! b) as [jb|] eqn:Hb;
      simpl in Hab; subst.
    + by eapply bijection_inj.
    + destruct (bijection_lookup_lt _ _ Hbij _ _ Ha) as [_ Hlt].
      apply lookup_ge_None in Hb. destruct Hbij as (Hl & _). lia.
    + destruct (bijection_lookup_lt _ _ Hbij _ _ Hb) as [_ Hlt].
      apply lookup_ge_None in Ha. destruct Hbij as (Hl & _). lia.
    + done.
  - intros i. destruct (order !! i) as [j|] eqn:Hi; simpl; [by apply Hg|].
    apply lookup_ge_None in Hi. destruct Hbij as (Hl & _).
    rewrite !(proj2 (lookup_ge_None _ _)); [done|lia..].
Qed.

(** ** [reorder_destructive] scatters *)

Lemma zload_nat {A} (l : list A) j x :
  l !! j = Some x → zload l (Z.of_nat j) = Done x.
Proof.
  intros Hj. unfold zload. rewrite decide_True by lia.
  rewrite Nat2Z.id. by apply load_Some.
Qed.

Lemma zstore_nat {A} (l : list A) j x :
  j < length l → zstore l (Z.of_nat j) x = Done (<[j:=x]> l).
Proof.
  intros Hj. unfold zstore. rewrite decide_True by lia.
  rewrite Nat2Z.id. by apply store_lt.
Qed.

Lemma walk_fixed o k m : o !! k = Some k → walk o m k = Some k.
Proof. intros Hk. induction m as [|m IH]; [done|]. simpl. by rewrite IH. Qed.

Section destructive_proof.
Context {T : Type}.
Variables (neg1 : Z) (n : nat) (o : list nat) (v0 : list T).
Hypothesis Hbij : bijection n o.
Hypothesis Hneg1 : ¬ (0 ≤ neg1 < Z.of_nat n)%Z.

Lemma dcycle_inv_fresh s order v remaining temp j pd pred :
  dcycle_inv neg1 n o v0 s order v remaining temp j pd pred → j ≠ s →
  pd !! j = Some false ∧ s < j.
Proof.
  intros Hinv Hjs.
  destruct (bijection_lookup_lt n o Hbij _ _
              (di_next _ _ _ _ _ _ _ _ _ _ _ _ Hinv)) as [_ Hj].
  destruct (lookup_lt_is_Some_2 pd j) as [b Hb];
    [by rewrite (di_len_pd _ _ _ _ _ _ _ _ _ _ _ _ Hinv)|].
  destruct b.
  - destruct (di_back _ _ _ _ _ _ _ _ _ _ _ _ Hinv pred j) as [_ Hne];
      [apply Hinv|done|done|done].
  - split; [done|]. destruct (decide (j < s)) as [Hlt|]; [|lia].
    pose proof (di_below _ _ _ _ _ _ _ _ _ _ _ _ Hinv j Hlt Hj). congruence.
Qed.

Lemma dcycle_inv_step s order v remaining temp j pd pred x j1 :
  dcycle_inv neg1 n o v0 s order v remaining temp j pd pred → j ≠ s →
  v !! j = Some x → o !! j = Some j1 →
  dcycle_inv neg1 n o v0 s (<[j:=neg1]> order) (<[j:=temp]> v)
    (remaining - 1)%Z x j1 (<[j:=true]> pd) j.
Proof.
  intros Hinv Hjs Hx Hj1.
  destruct (dcycle_inv_fresh _ _ _ _ _ _ _ _ Hinv Hjs) as [Hfresh Hsj].
  destruct Hinv as [Hlv Hlo Hlp Hbelow Hstart Hpred Hnext Htemp Hplaced Hback
                    Hrest Horder Hrem].
  destruct (bijection_lookup_lt n o Hbij _ _ Hnext) as [Hpn Hjn].
  assert (Hpj : pred ≠ j) by congruence.
  assert (Hmark : ∀ k, pd !! k = Some true → <[j:=true]> pd !! k = Some true).
  { intros k Hk. rewrite list_lookup_insert_ne; [done|congruence]. }
  split.
  - by rewrite length_insert.
  - by rewrite length_insert.
  - by rewrite length_insert.
  - intros k Hk Hkn. apply Hmark. by apply Hbelow.
  - by apply Hmark.
  - apply list_lookup_insert_eq. lia.
  - done.
  - destruct (Hrest j Hfresh) as [Hvj _]. congruence.
  - intros k Hk Hkj. rewrite list_lookup_insert_ne in Hk by done.
    destruct (decide (k = pred)) as [->|Hkp].
    + exists j. split_and!; [done| |done|].
      * apply list_lookup_insert_eq. lia.
      * rewrite list_lookup_insert_eq by lia. done.
    + destruct (Hplaced k Hk Hkp) as (j' & Hj' & Hdj' & Hj's & Hv).
      exists j'. split_and!; [done|by apply Hmark|done|].
      rewrite list_lookup_insert_ne; [done|congruence].
  - intros k j' Hk Hdj' Hj's.
    destruct (decide (j' = j)) as [->|Hne].
    + assert (k = pred) as -> by (by eapply bijection_inj).
      split; [by apply Hmark|done].
    + rewrite list_lookup_insert_ne in Hdj' by done.
      destruct (Hback k j' Hk Hdj' Hj's) as [Hdk Hkp].
      split; [by apply Hmark|congruence].
  - intros k Hk.
    assert (k ≠ j).
    { intros ->. rewrite list_lookup_insert_eq in Hk by lia. done. }
    rewrite list_lookup_insert_ne in Hk by done.
    rewrite !list_lookup_insert_ne by done. by apply Hrest.
  - intros k Hk. destruct (decide (k = j)) as [->|Hkj].
    + left. split; [apply list_lookup_insert_eq; lia|].
      right. split; [lia|]. by exists 0.
    + rewrite list_lookup_insert_ne in Hk by done.
      rewrite list_lookup_insert_ne by done.
      destruct (Horder k Hk) as [[Ho [Hmin|[Hsk [m Hm]]]]|Hlead].
      * left. split; [done|]. by left.
      * left. split; [done|]. right. split; [done|]. exists (S m).
        simpl. by rewrite Hm.
      * by right.
  - pose proof (unmarked_mark _ _ Hfresh). lia.
Qed.

Lemma dcycle_inv_exit s order v remaining temp pd pred :
  dcycle_inv neg1 n o v0 s order v remaining temp s pd pred →
  scan_inv neg1 n o v0 (S s) order (<[s:=temp]> v) remaining pd.
Proof.
  intros [Hlv Hlo Hlp Hbelow Hstart Hpred Hnext Htemp Hplaced Hback
          Hrest Horder Hrem].
  destruct (bijection_lookup_lt n o Hbij _ _ Hnext) as [Hpn Hsn].
  split; try done.
  - by rewrite length_insert.
  - intros k Hk Hkn. destruct (decide (k = s)) as [->|]; [done|].
    apply Hbelow; lia.
  - intros k Hk. destruct (decide (k = pred)) as [->|Hkp].
    + exists s. split_and!; [done..|].
      rewrite list_lookup_insert_eq by lia. done.
    + destruct (Hplaced k Hk Hkp) as (j' & Hj' & Hdj' & Hj's & Hv).
      exists j'. split_and!; [done..|].
      by rewrite list_lookup_insert_ne.
  - intros k j Hk Hdj. destruct (decide (j = s)) as [->|Hjs].
    + by assert (k = pred) as -> by (by eapply bijection_inj).
    + by apply (Hback k j).
  - intros k Hk. assert (k ≠ s) by congruence.
    rewrite list_lookup_insert_ne by done. by apply Hrest.
  - intros k Hk.
    destruct (Horder k Hk) as [[Ho [Hmin|[Hsk [m Hm]]]]|(Hks & Ho & Hmin)].
    + by left.
    + left. split; [done|]. intros Hmin.
      specialize (Hmin (S m) s). simpl in Hmin. rewrite Hm in Hmin.
      specialize (Hmin Hnext). lia.
    + right. split_and!; [lia|done..].
Qed.

Lemma destructive_cycle_ok cfuel s order v remaining temp j pd pred :
  dcycle_inv neg1 n o v0 s order v remaining temp j pd pred →
  unmarked pd < cfuel →
  ∃ order' v' remaining' temp' pd',
    destructive_cycle neg1 cfuel s order v remaining temp (Z.of_nat j)
      = Done (order', v', remaining', temp')
    ∧ scan_inv neg1 n o v0 (S s) order' (<[s:=temp']> v') remaining' pd'.
Proof.
  revert order v remaining temp j pd pred.
  induction cfuel as [|cfuel IH];
    intros order v remaining temp j pd pred Hinv Hfuel; [lia|].
  simpl. destruct (decide (Z.of_nat j = Z.of_nat s)) as [Heq|Hne].
  { apply Nat2Z.inj in Heq as ->.
    exists order, v, remaining, temp, pd. split; [done|].
    by apply (dcycle_inv_exit _ _ _ _ _ _ pred). }
  assert (Hjs : j ≠ s) by congruence.
  destruct (dcycle_inv_fresh _ _ _ _ _ _ _ _ Hinv Hjs) as [Hfresh Hsj].
  destruct (bijection_lookup_lt n o Hbij _ _
              (di_next _ _ _ _ _ _ _ _ _ _ _ _ Hinv)) as [Hpn Hjn].
  pose proof (di_len_v _ _ _ _ _ _ _ _ _ _ _ _ Hinv) as Hlv.
  pose proof (di_len_order _ _ _ _ _ _ _ _ _ _ _ _ Hinv) as Hlo.
  destruct (lookup_lt_is_Some_2 v j) as [x Hx]; [lia|].
  destruct (bijection_total n o Hbij j Hjn) as (j1 & Hj1 & _).
  destruct (di_rest _ _ _ _ _ _ _ _ _ _ _ _ Hinv j Hfresh) as [_ Hoj].
  rewrite Hj1 in Hoj. simpl in Hoj.
  rewrite (zload_nat _ _ _ Hx). simpl.
  rewrite zstore_nat by lia. simpl.
  rewrite (zload_nat _ _ _ Hoj). simpl.
  rewrite zstore_nat by lia. simpl.
  apply (IH _ _ _ _ _ (<[j:=true]> pd) j).
  - by apply (dcycle_inv_step _ _ _ _ _ _ _ pred).
  - pose proof (unmarked_mark _ _ Hfresh). lia.
Qed.

Lemma scan_inv_unmarked_cycle s order v remaining pd m j :
  scan_inv neg1 n o v0 s order v remaining pd → pd !! s = Some false →
  walk o m s = Some j → pd !! j = Some false.
Proof.
  intros Hinv Hs. revert j. induction m as [|m IH]; intros j Hw.
  { by simplify_eq/=. }
  simpl in Hw. destruct (walk o m s) as [j'|] eqn:Hj'; [|done].
  simpl in Hw. specialize (IH j' eq_refl).
  destruct (bijection_lookup_lt n o Hbij _ _ Hw) as [_ Hjn].
  destruct (lookup_lt_is_Some_2 pd j) as [b Hb];
    [by rewrite (si_len_pd _ _ _ _ _ _ _ _ _ Hinv)|].
  destruct b; [|done].
  pose proof (si_back _ _ _ _ _ _ _ _ _ Hinv j' j Hw Hb). congruence.
Qed.

Lemma scan_inv_cycle_min s order v remaining pd :
  scan_inv neg1 n o v0 s order v remaining pd → pd !! s = Some false →
  cycle_min o s.
Proof.
  intros Hinv Hs m j Hw.
  pose proof (scan_inv_unmarked_cycle _ _ _ _ _ _ _ Hinv Hs Hw) as Hj.
  destruct (decide (j < s)) as [Hlt|]; [|lia].
  assert (j < n).
  { rewrite <- (si_len_pd _ _ _ _ _ _ _ _ _ Hinv). by eapply lookup_lt_Some. }
  pose proof (si_below _ _ _ _ _ _ _ _ _ Hinv j Hlt). naive_solver.
Qed.

Lemma scan_inv_skip s order v remaining pd :
  scan_inv neg1 n o v0 s order v remaining pd → pd !! s = Some true →
  scan_inv neg1 n o v0 (S s) order v remaining pd.
Proof.
  intros [Hlv Hlo Hlp Hbelow Hplaced Hback Hrest Horder Hrem] Hs.
  split; try done.
  - intros k Hk Hkn. destruct (decide (k = s)) as [->|]; [done|].
    apply Hbelow; lia.
  - intros k Hk. destruct (Horder k Hk) as [?|(? & ? & ?)]; [by left|].
    right. split_and!; [lia|done..].
Qed.

Lemma dcycle_inv_init s order v remaining pd j temp :
  scan_inv neg1 n o v0 s order v remaining pd → pd !! s = Some false →
  o !! s = Some j → v !! s = Some temp →
  dcycle_inv neg1 n o v0 s order v (remaining - 1)%Z temp j
    (<[s:=true]> pd) s.
Proof.
  intros Hinv Hs Hj Htemp.
  pose proof (scan_inv_cycle_min _ _ _ _ _ Hinv Hs) as Hmin.
  destruct Hinv as [Hlv Hlo Hlp Hbelow Hplaced Hback Hrest Horder Hrem].
  destruct (bijection_lookup_lt n o Hbij _ _ Hj) as [Hsn Hjn].
  assert (Hmark : ∀ k, pd !! k = Some true → <[s:=true]> pd !! k = Some true).
  { intros k Hk. rewrite list_lookup_insert_ne; [done|congruence]. }
  assert (Hunmark : ∀ k, <[s:=true]> pd !! k = Some false →
                         k ≠ s ∧ pd !! k = Some false).
  { intros k Hk. destruct (decide (k = s)) as [->|Hne].
    - rewrite list_lookup_insert_eq in Hk by lia. done.
    - by rewrite list_lookup_insert_ne in Hk. }
  split; try done.
  - by rewrite length_insert.
  - intros k Hk Hkn. apply Hmark. by apply Hbelow.
  - apply list_lookup_insert_eq. lia.
  - apply list_lookup_insert_eq. lia.
  - destruct (Hrest s Hs) as [Hv _]. congruence.
  - intros k Hk Hks. rewrite list_lookup_insert_ne in Hk by done.
    destruct (Hplaced k Hk) as (j' & Hj' & Hdj' & Hv).
    exists j'. split_and!; [done|by apply Hmark|congruence|done].
  - intros k j' Hk Hdj' Hj's. rewrite list_lookup_insert_ne in Hdj' by done.
    pose proof (Hback k j' Hk Hdj') as Hdk.
    split; [by apply Hmark|congruence].
  - intros k [Hks Hk]%Hunmark. by apply Hrest.
  - intros k Hk. destruct (decide (k = s)) as [->|Hks].
    + right. split_and!; [lia| |done]. by apply Hrest.
    + rewrite list_lookup_insert_ne in Hk by done.
      destruct (Horder k Hk) as [[? ?]|(? & ? & ?)].
      * left. split; [done|]. by left.
      * right. split_and!; [lia|done..].
  - pose proof (unmarked_mark _ _ Hs). lia.
Qed.

Lemma destructive_scan_ok fuel cfuel s order v remaining pd :
  scan_inv neg1 n o v0 s order v remaining pd →
  n ≤ cfuel → s ≤ n → n - s < fuel →
  ∃ order' v' s' remaining' pd',
    destructive_scan neg1 fuel cfuel s order v remaining = Done (order', v')
    ∧ scan_inv neg1 n o v0 s' order' v' remaining' pd'
    ∧ (remaining' ≤ 0)%Z.
Proof.
  revert s order v remaining pd.
  induction fuel as [|fuel IH];
    intros s order v remaining pd Hinv Hcfuel Hsn Hfuel; [lia|].
  simpl. destruct (decide (0 < remaining)%Z) as [Hpos|Hdone]; last first.
  { exists order, v, s, remaining, pd. split_and!; [done..|lia]. }
  pose proof (si_len_v _ _ _ _ _ _ _ _ _ Hinv) as Hlv.
  pose proof (si_len_order _ _ _ _ _ _ _ _ _ Hinv) as Hlo.
  pose proof (si_len_pd _ _ _ _ _ _ _ _ _ Hinv) as Hlp.
  pose proof (si_remaining _ _ _ _ _ _ _ _ _ Hinv) as Hrem.
  assert (Hs : s < n).
  { destruct (unmarked_pos pd) as [k Hk]; [lia|].
    assert (k < n) by (rewrite <- Hlp; by eapply lookup_lt_Some).
    destruct (decide (k < s)) as [Hlt|]; [|lia].
    pose proof (si_below _ _ _ _ _ _ _ _ _ Hinv k Hlt). naive_solver. }
  destruct (bijection_total n o Hbij s Hs) as (j & Hj & Hjn).
  destruct (lookup_lt_is_Some_2 pd s) as [b Hb]; [lia|].
  destruct b.
  - (* [s] belongs to a cycle that has been walked *)
    destruct (si_order _ _ _ _ _ _ _ _ _ Hinv s Hb) as [[Ho _]|[? _]]; [|lia].
    rewrite (load_Some _ _ _ Ho). simpl. rewrite decide_True by done.
    apply (IH _ _ _ _ pd); [by apply scan_inv_skip|lia..].
  - (* [s] starts a fresh cycle *)
    destruct (si_rest _ _ _ _ _ _ _ _ _ Hinv s Hb) as [Hvs Hos].
    rewrite Hj in Hos. simpl in Hos.
    rewrite (load_Some _ _ _ Hos). simpl. rewrite decide_False by lia.
    destruct (lookup_lt_is_Some_2 v s) as [temp Htemp]; [lia|].
    rewrite (load_Some _ _ _ Htemp). simpl.
    destruct (destructive_cycle_ok cfuel s order v (remaining - 1)%Z temp j
                (<[s:=true]> pd) s)
      as (order1 & v1 & remaining1 & temp1 & pd1 & -> & Hinv1).
    { by apply dcycle_inv_init. }
    { pose proof (unmarked_mark _ _ Hb). pose proof (unmarked_le_length pd).
      lia. }
    simpl.
    pose proof (si_len_v _ _ _ _ _ _ _ _ _ Hinv1) as Hlv1.
    rewrite length_insert in Hlv1.
    rewrite store_lt by lia. simpl.
    apply (IH _ _ _ _ pd1); [done|lia..].
Qed.

Lemma scan_inv_final s order v remaining pd :
  scan_inv neg1 n o v0 s order v remaining pd → (remaining ≤ 0)%Z →
  (∀ k j, o !! k = Some j → v !! j = v0 !! k)
  ∧ (∀ k, k < n →
       (order !! k = Some neg1 ∧ ¬ cycle_min o k)
       ∨ (order !! k = Z.of_nat <$> o !! k ∧ cycle_min o k)).
Proof.
  intros [Hlv Hlo Hlp Hbelow Hplaced Hback Hrest Horder Hrem] Hle.
  assert (Hfix : ∀ k, pd !! k = Some false → o !! k = Some k).
  { intros k Hk.
    assert (k < n) by (rewrite <- Hlp; by eapply lookup_lt_Some).
    destruct (bijection_total n o Hbij k) as (j & Hj & Hjn); [done|].
    destruct (lookup_lt_is_Some_2 pd j) as [b Hb]; [lia|].
    destruct b.
    - pose proof (Hback k j Hj Hb). congruence.
    - by rewrite (unmarked_unique pd k j) at 2 by (done || lia). }
  split.
  - intros k j Hk.
    destruct (bijection_lookup_lt n o Hbij _ _ Hk) as [Hkn Hjn].
    destruct (lookup_lt_is_Some_2 pd k) as [b Hb]; [lia|].
    destruct b.
    + destruct (Hplaced k Hb) as (j' & Hj' & _ & Hv). congruence.
    + pose proof (Hfix k Hb). simplify_eq. by apply Hrest.
  - intros k Hkn.
    destruct (lookup_lt_is_Some_2 pd k) as [b Hb]; [lia|].
    destruct b.
    + destruct (Horder k Hb) as [?|(? & ? & ?)]; [by left|by right].
    + right. split; [by apply Hrest|].
      intros m j Hw. rewrite walk_fixed in Hw by (by apply Hfix).
      by simplify_eq.
Qed.
End destructive_proof.

(** What a run of [reorder_destructive] on a bijection gives: it returns,
    it scatters, and it leaves in [order] the first index of every cycle. *)
Lemma reorder_destructive_scatters {T} neg1 fuel (v : list T) o :
  bijection (length v) o → ¬ (0 ≤ neg1 < Z.of_nat (length v))%Z →
  length v < fuel →
  ∃ order' v',
    reorder_destructive neg1 fuel (as_index o) v = Done (order', v')
    ∧ length v' = length v
    ∧ length order' = length v
    ∧ (∀ k j, o !! k = Some j → v' !! j = v !! k)
    ∧ (∀ k, k < length v →
         (order' !! k = Some neg1 ∧ ¬ cycle_min o k)
         ∨ (order' !! k = Z.of_nat <$> o !! k ∧ cycle_min o k)).
Proof.
  intros Hbij Hneg1 Hfuel. unfold reorder_destructive.
  assert (Hlo : length (as_index o) = length v).
  { unfold as_index. rewrite length_fmap. apply Hbij. }
  destruct (destructive_scan_ok neg1 (length v) o v Hbij Hneg1 fuel fuel 0
              (as_index o) v (Z.of_nat (length (as_index o)) - 1)%Z
              (replicate (length v) false))
    as (order' & v' & s' & remaining' & pd' & -> & Hinv & Hle); [|lia..|].
  { split; try done.
    - apply length_replicate.
    - lia.
    - by intros k [? _]%lookup_replicate.
    - by intros k j _ [? _]%lookup_replicate.
    - intros k _. split; [done|]. unfold as_index. apply list_lookup_fmap.
    - by intros k [? _]%lookup_replicate.
    - rewrite unmarked_replicate. lia. }
  exists order', v'.
  destruct (scan_inv_final neg1 (length v) o v Hbij Hneg1 _ _ _ _ _ Hinv Hle)
    as [Hv Ho].
  split_and!; [done|apply Hinv|apply Hinv|done|done].
Qed.

(** ** [sort_indices]: the stable sort and the index permutation *)

Lemma appears_before_insert {A} (a b x : A) k1 k2 :
  appears_before a b (k1 ++ k2) → appears_before a b (k1 ++ x :: k2).
Proof.
  intros (p & q & Hpq & Hp & Hq).
  assert (Hshift : ∀ r c, (k1 ++ k2) !! r = Some c →
    (k1 ++ x :: k2) !! (if decide (r < length k1) then r else S r) = Some c).
  { intros r c Hr. case_decide.
    - rewrite lookup_app_l in Hr by done. by rewrite lookup_app_l.
    - rewrite lookup_app_r in Hr by lia. rewrite lookup_app_r by lia.
      by replace (S r - length k1) with (S (r - length k1)) by lia. }
  exists (if decide (p < length k1) then p else S p),
         (if decide (q < length k1) then q else S q).
  split_and!; [repeat case_decide; lia|by apply Hshift..].
Qed.

Section stable_sort_facts.
Context {A : Type} (comp : A → A → bool) (dom : A → Prop).
Hypothesis comp_asym : ∀ x y, comp x y = true → comp y x = false.
Hypothesis comp_le_trans : ∀ x y z, dom x → dom y → dom z →
  comp y x = false → comp z y = false → comp z x = false.

(** [insert_stable] puts [x] behind the elements that go before it and in
    front of everything else. *)
Lemma insert_stable_split x l :
  ∃ k1 k2, l = k1 ++ k2 ∧ insert_stable comp x l = k1 ++ x :: k2
    ∧ Forall (λ y, comp y x = true) k1.
Proof.
  induction l as [|y l IH]; simpl.
  { by exists [], []. }
  destruct (comp y x) eqn:Hyx.
  - destruct IH as (k1 & k2 & -> & -> & Hk1).
    exists (y :: k1), k2. split_and!; [done..|]. by constructor.
  - by exists [], (y :: l).
Qed.

Lemma insert_stable_Permutation x l : insert_stable comp x l ≡ₚ x :: l.
Proof.
  destruct (insert_stable_split x l) as (k1 & k2 & -> & -> & _).
  symmetry. apply Permutation_middle.
Qed.

Lemma stable_sort_Permutation l : stable_sort comp l ≡ₚ l.
Proof.
  induction l as [|x l IH]; [done|]. simpl.
  by rewrite insert_stable_Permutation, IH.
Qed.

Lemma insert_stable_sorted x l :
  dom x → Forall dom l →
  StronglySorted (λ a b, comp b a = false) l →
  StronglySorted (λ a b, comp b a = false) (insert_stable comp x l).
Proof.
  intros Hx. induction l as [|y l IH]; intros Hdom Hsorted; simpl.
  { repeat constructor. }
  apply Forall_cons_1 in Hdom as [Hy Hdom].
  apply StronglySorted_cons in Hsorted as [Hyl Hsorted].
  destruct (comp y x) eqn:Hyx.
  - apply StronglySorted_cons. split; [|by apply IH].
    rewrite insert_stable_Permutation. constructor; [by apply comp_asym|done].
  - apply StronglySorted_cons. split; [|by apply StronglySorted_cons].
    constructor; [done|].
    rewrite Forall_lookup in Hyl, Hdom |- *. intros i z Hz.
    apply (comp_le_trans x y z); eauto.
Qed.

Lemma stable_sort_sorted l :
  Forall dom l → StronglySorted (λ a b, comp b a = false) (stable_sort comp l).
Proof.
  induction l as [|x l IH]; intros Hdom; simpl; [constructor|].
  apply Forall_cons_1 in Hdom as [Hx Hdom].
  apply insert_stable_sorted; [done| |by apply IH].
  by rewrite stable_sort_Permutation.
Qed.

Lemma insert_stable_before_new x b l :
  b ∈ l → comp b x = false → appears_before x b (insert_stable comp x l).
Proof.
  intros Hb Hbx.
  destruct (insert_stable_split x l) as (k1 & k2 & -> & -> & Hk1).
  apply list_elem_of_lookup_1 in Hb as [q Hq].
  assert (length k1 ≤ q) as Hge.
  { destruct (decide (q < length k1)) as [Hlt|]; [|lia].
    rewrite lookup_app_l in Hq by done.
    rewrite Forall_lookup in Hk1. specialize (Hk1 q b Hq). congruence. }
  exists (length k1), (S q). split_and!; [lia|by apply list_lookup_middle|].
  rewrite lookup_app_r in Hq by lia. rewrite lookup_app_r by lia.
  by replace (S q - length k1) with (S (q - length k1)) by lia.
Qed.

Lemma insert_stable_before_old x a b l :
  appears_before a b l → appears_before a b (insert_stable comp x l).
Proof.
  destruct (insert_stable_split x l) as (k1 & k2 & -> & -> & _).
  apply appears_before_insert.
Qed.

(** Stability: elements of which the later does not go before the earlier
    keep their order. *)
Lemma stable_sort_stable l a b :
  appears_before a b l → comp b a = false →
  appears_before a b (stable_sort comp l).
Proof.
  intros Hab Hba. induction l as [|x l IH].
  { by destruct Hab as (p & q & _ & ? & _). }
  destruct Hab as (p & q & Hpq & Hp & Hq). simpl.
  destruct q as [|q]; [lia|]. simpl in Hq.
  destruct p as [|p]; simpl in Hp.
  - simplify_eq. apply insert_stable_before_new; [|done].
    rewrite stable_sort_Permutation. by eapply list_elem_of_lookup_2.
  - apply insert_stable_before_old, IH.
    exists p, q. split_and!; [lia|done..].
Qed.
End stable_sort_facts.

Lemma StronglySorted_lookup_lt {A} (R : relation A) l p q x y :
  StronglySorted R l → p < q → l !! p = Some x → l !! q = Some y → R x y.
Proof.
  intros Hsorted Hpq Hp Hq.
  rewrite <- (take_drop q l) in Hsorted.
  eapply StronglySorted_app_1_elem_of; [done| |].
  - apply elem_of_take. eauto.
  - apply list_elem_of_lookup. exists 0. by rewrite lookup_drop, Nat.add_0_r.
Qed.

Section sort_indices_facts.
Context {T : Type} (ltb : T → T → bool) (keys : list T).

Lemma sort_indices_Permutation : sort_indices ltb keys ≡ₚ seq 0 (length keys).
Proof. apply stable_sort_Permutation. Qed.

Lemma sort_indices_bijection : bijection (length keys) (sort_indices ltb keys).
Proof.
  split_and!.
  - by rewrite sort_indices_Permutation, length_seq.
  - rewrite sort_indices_Permutation. apply NoDup_seq.
  - rewrite sort_indices_Permutation. apply Forall_seq. lia.
Qed.

Lemma key_less_asym i j :
  (∀ x y, ltb x y = true → ltb y x = false) →
  key_less ltb keys i j = true → key_less ltb keys j i = false.
Proof.
  intros Hasym. unfold key_less.
  destruct (keys !! i), (keys !! j); auto.
Qed.

Lemma sort_indices_sorted :
  strict_weak_order ltb → nondecreasing_through ltb keys (sort_indices ltb keys).
Proof.
  intros [Hasym Htrans] p q i j Hpq Hp Hq.
  assert (Hsorted : StronglySorted (λ a b, key_less ltb keys b a = false)
                      (sort_indices ltb keys)).
  { apply (stable_sort_sorted _ (λ i, i < length keys)).
    - intros ??. by apply key_less_asym.
    - intros a b c [x Hx]%lookup_lt_is_Some_2 [y Hy]%lookup_lt_is_Some_2
        [z Hz]%lookup_lt_is_Some_2.
      unfold key_less. rewrite Hx, Hy, Hz. intros Hyx Hzy.
      specialize (Htrans x y z). unfold leb_of in Htrans.
      rewrite Hyx, Hzy in Htrans. specialize (Htrans eq_refl eq_refl).
      by apply negb_true_iff in Htrans.
    - apply Forall_seq. lia. }
  pose proof (StronglySorted_lookup_lt _ _ _ _ _ _ Hsorted Hpq Hp Hq) as Hij.
  destruct sort_indices_bijection as (_ & _ & Hlt).
  rewrite Forall_lookup in Hlt.
  destruct (lookup_lt_is_Some_2 keys i) as [x Hx]; [by eapply Hlt|].
  destruct (lookup_lt_is_Some_2 keys j) as [y Hy]; [by eapply Hlt|].
  exists x, y. split_and!; [done..|].
  unfold key_less in Hij. rewrite Hx, Hy in Hij.
  unfold leb_of. by rewrite Hij.
Qed.

Lemma sort_indices_stable a b x :
  (∀ x y, ltb x y = true → ltb y x = false) →
  a < b → keys !! a = Some x → keys !! b = Some x →
  appears_before a b (sort_indices ltb keys).
Proof.
  intros Hasym Hab Ha Hb. apply stable_sort_stable.
  - exists a, b. split_and!; [done|apply lookup_seq..].
    + split; [done|]. by eapply lookup_lt_Some.
    + split; [done|]. by eapply lookup_lt_Some.
  - unfold key_less. rewrite Ha, Hb.
    destruct (ltb x x) eqn:Hxx; [|done]. by rewrite (Hasym x x Hxx) in Hxx.
Qed.
End sort_indices_facts.

(** ** The stable sorted arrangement is unique *)

(** Whatever algorithm [std::stable_sort] runs, its result on pairwise
    different entries is the list [stable_sort] computes: a sorted and
    stable rearrangement of a list is determined by the list. *)

Lemma appears_before_cons {A} (a b x : A) l :
  appears_before a b l → appears_before a b (x :: l).
Proof. apply (appears_before_insert a b x []). Qed.

Lemma appears_before_asym {A} (a b : A) l :
  NoDup l → appears_before a b l → appears_before b a l → False.
Proof.
  intros Hnd (p & q & Hpq & Hp & Hq) (p' & q' & Hpq' & Hp' & Hq').
  pose proof (NoDup_lookup _ _ _ _ Hnd Hp Hq').
  pose proof (NoDup_lookup _ _ _ _ Hnd Hq Hp'). lia.
Qed.

Lemma appears_before_total {A} (a b : A) l :
  a ∈ l → b ∈ l → a ≠ b → appears_before a b l ∨ appears_before b a l.
Proof.
  intros [p Hp]%list_elem_of_lookup_1 [q Hq]%list_elem_of_lookup_1 Hab.
  destruct (decide (p < q)); [left; by exists p, q|].
  right. exists q, p. split_and!; [|done..].
  assert (p ≠ q) by congruence. lia.
Qed.

Lemma same_order_eq {A} (l1 l2 : list A) :
  NoDup l1 → l1 ≡ₚ l2 →
  (∀ a b, appears_before a b l1 → appears_before a b l2) → l1 = l2.
Proof.
  revert l2. induction l1 as [|x l1 IH]; intros l2 Hnd Hperm Hord.
  { by apply Permutation_nil_l. }
  assert (Hnd2 : NoDup l2) by (by rewrite <- Hperm).
  apply NoDup_cons in Hnd as [Hx Hnd].
  destruct l2 as [|y l2]; [by apply Permutation_nil_r in Hperm|].
  assert (y = x) as ->.
  { assert (y ∈ x :: l1) as Hy by (rewrite Hperm; left).
    apply elem_of_cons in Hy as [|[q Hq]%list_elem_of_lookup_1]; [done|].
    exfalso.
    destruct (Hord x y) as (p' & q' & Hpq' & Hp' & Hq').
    { exists 0, (S q). split_and!; [lia|done..]. }
    assert (q' = 0) by (by apply (NoDup_lookup (y :: l2) _ _ y)). lia. }
  f_equal. apply IH; [done|by eapply Permutation_cons_inv|].
  intros a b Hab.
  destruct (Hord a b (appears_before_cons _ _ x _ Hab))
    as (p & q & Hpq & Hp & Hq).
  destruct q as [|q]; [lia|]. destruct p as [|p].
  - simplify_eq/=. destruct Hab as (p' & _ & _ & Hp' & _).
    destruct Hx. by eapply list_elem_of_lookup_2.
  - exists p, q. split_and!; [lia|done..].
Qed.

Section stable_sort_unique.
Context {A : Type} (comp : A → A → bool) (dom : A → Prop).
Hypothesis comp_asym : ∀ x y, comp x y = true → comp y x = false.
Hypothesis comp_le_trans : ∀ x y z, dom x → dom y → dom z →
  comp y x = false → comp z y = false → comp z x = false.

Lemma sorted_stable_same_order l l1 l2 a b :
  NoDup l → l1 ≡ₚ l → l2 ≡ₚ l →
  StronglySorted (λ a b, comp b a = false) l1 →
  StronglySorted (λ a b, comp b a = false) l2 →
  (∀ a b, appears_before a b l → comp a b = false → comp b a = false →
     appears_before a b l1) →
  (∀ a b, appears_before a b l → comp a b = false → comp b a = false →
     appears_before a b l2) →
  appears_before a b l1 → appears_before a b l2.
Proof.
  intros Hnd Hp1 Hp2 Hs1 Hs2 Hst1 Hst2 Hab.
  assert (Hnd1 : NoDup l1) by (by rewrite Hp1).
  destruct Hab as (p & q & Hpq & Hp & Hq).
  assert (Hba : comp b a = false)
    by apply (StronglySorted_lookup_lt _ _ _ _ _ _ Hs1 Hpq Hp Hq).
  assert (Hne : a ≠ b).
  { intros ->. pose proof (NoDup_lookup _ _ _ _ Hnd1 Hp Hq). lia. }
  assert (Ha : a ∈ l) by (rewrite <- Hp1; by eapply list_elem_of_lookup_2).
  assert (Hb : b ∈ l) by (rewrite <- Hp1; by eapply list_elem_of_lookup_2).
  destruct (appears_before_total a b l2) as [|Hrev];
    [by rewrite Hp2..|done|done|].
  destruct Hrev as (p' & q' & Hpq' & Hp' & Hq').
  assert (Hab' : comp a b = false)
    by apply (StronglySorted_lookup_lt _ _ _ _ _ _ Hs2 Hpq' Hp' Hq').
  destruct (appears_before_total a b l Ha Hb Hne) as [Hl|Hl].
  - by apply Hst2.
  - destruct (appears_before_asym a b l1 Hnd1); [by exists p, q|].
    by apply Hst1.
Qed.

Lemma stable_sort_unique l l' :
  NoDup l → Forall dom l → l' ≡ₚ l →
  StronglySorted (λ a b, comp b a = false) l' →
  (∀ a b, appears_before a b l → comp a b = false → comp b a = false →
     appears_before a b l') →
  l' = stable_sort comp l.
Proof.
  intros Hnd Hdom Hperm Hsorted Hstable.
  apply same_order_eq.
  - by rewrite Hperm.
  - by rewrite Hperm, stable_sort_Permutation.
  - intros a b. apply (sorted_stable_same_order l); try done.
    + apply stable_sort_Permutation.
    + by apply (stable_sort_sorted comp dom).
    + intros a' b' Hab _ Hba. by apply stable_sort_stable.
Qed.
End stable_sort_unique.

(** Every index vector that meets the contract of [std::stable_sort] on the
    comparator of [sort_indices] is the one the model returns. *)
Lemma sort_indices_unique {T} (ltb : T → T → bool) keys idx :
  strict_weak_order ltb →
  idx ≡ₚ seq 0 (length keys) →
  StronglySorted (λ i j, key_less ltb keys j i = false) idx →
  (∀ a b, appears_before a b (seq 0 (length keys)) →
     key_less ltb keys a b = false → key_less ltb keys b a = false →
     appears_before a b idx) →
  idx = sort_indices ltb keys.
Proof.
  intros [Hasym Htrans] Hperm Hsorted Hstable.
  apply (stable_sort_unique _ (λ i, i < length keys)); try done.
  - intros ??. by apply key_less_asym.
  - intros a b c [x Hx]%lookup_lt_is_Some_2 [y Hy]%lookup_lt_is_Some_2
      [z Hz]%lookup_lt_is_Some_2.
    unfold key_less. rewrite Hx, Hy, Hz. intros Hyx Hzy.
    specialize (Htrans x y z). unfold leb_of in Htrans.
    rewrite Hyx, Hzy in Htrans. specialize (Htrans eq_refl eq_refl).
    by apply negb_true_iff in Htrans.
  - apply NoDup_seq.
  - apply Forall_seq. lia.
Qed.

(** ** [RemoveDuplicates] *)

Section RemoveDuplicates_facts.
Context `{Countable T}.

Lemma remove_if_seen_sublist (seen : gset T) l :
  (remove_if seen_before seen l).1 `sublist_of` l.
Proof.
  revert seen. induction l as [|x l IH]; intros seen; simpl; [done|].
  unfold seen_before at 1. case_decide.
  - specialize (IH seen). destruct (remove_if seen_before seen l).
    by apply sublist_cons.
  - specialize (IH ({[x]} ∪ seen)).
    destruct (remove_if seen_before ({[x]} ∪ seen) l).
    by apply sublist_skip.
Qed.

Lemma remove_if_seen_elem_of (seen : gset T) l x :
  x ∈ (remove_if seen_before seen l).1 ↔ x ∈ l ∧ x ∉ seen.
Proof.
  revert seen. induction l as [|y l IH]; intros seen; simpl.
  { set_solver. }
  unfold seen_before at 1. case_decide.
  - specialize (IH seen). destruct (remove_if seen_before seen l).
    simpl in *. set_solver.
  - specialize (IH ({[y]} ∪ seen)).
    destruct (remove_if seen_before ({[y]} ∪ seen) l).
    simpl in *. rewrite elem_of_cons, IH.
    destruct (decide (x = y)); set_solver.
Qed.

Lemma remove_if_seen_NoDup (seen : gset T) l :
  NoDup (remove_if seen_before seen l).1.
Proof.
  revert seen. induction l as [|y l IH]; intros seen; simpl.
  { constructor. }
  unfold seen_before at 1. case_decide.
  - specialize (IH seen). by destruct (remove_if seen_before seen l).
  - pose proof (remove_if_seen_elem_of ({[y]} ∪ seen) l y) as Hy.
    specialize (IH ({[y]} ∪ seen)).
    destruct (remove_if seen_before ({[y]} ∪ seen) l).
    simpl in *. apply NoDup_cons. split; [set_solver|done].
Qed.

Lemma remove_if_seen_fresh (seen : gset T) l :
  NoDup l → (∀ x, x ∈ l → x ∉ seen) →
  (remove_if seen_before seen l).1 = l.
Proof.
  revert seen. induction l as [|y l IH]; intros seen Hnd Hfresh; simpl.
  { done. }
  apply NoDup_cons in Hnd as [Hy Hnd].
  unfold seen_before at 1. rewrite decide_False by set_solver.
  specialize (IH ({[y]} ∪ seen) Hnd).
  destruct (remove_if seen_before ({[y]} ∪ seen) l). simpl in *.
  f_equal. apply IH. set_solver.
Qed.

(** The run of [remove_if] on the rest [l] of a vector, with the elements of
    the part [pre] before it in [seen], removes what has appeared earlier. *)
Lemma remove_if_seen_earlier (seen : gset T) pre l :
  (∀ y, y ∈ seen ↔ y ∈ pre) →
  (remove_if seen_before seen l).1
  = omap (λ i, x ← (pre ++ l) !! i;
               if decide (x ∈ take i (pre ++ l)) then None else Some x)
         (seq (length pre) (length l)).
Proof.
  revert seen pre. induction l as [|x l IH]; intros seen pre Hseen; [done|].
  cbn [remove_if length seq omap list_omap].
  rewrite list_lookup_middle by done. cbn [mbind option_bind].
  rewrite take_app_length.
  specialize (IH (if decide (x ∈ seen) then seen else {[x]} ∪ seen)
                 (pre ++ [x])).
  rewrite <- app_assoc, length_app, Nat.add_1_r in IH. simpl in IH.
  unfold seen_before at 1.
  destruct (decide (x ∈ seen)) as [Hin|Hnin].
  - rewrite decide_True by (by apply Hseen).
    destruct (remove_if seen_before seen l). simpl in *.
    apply IH. set_solver.
  - rewrite decide_False by (by rewrite <- Hseen).
    destruct (remove_if seen_before ({[x]} ∪ seen) l). simpl in *.
    f_equal. apply IH. set_solver.
Qed.

Lemma RemoveDuplicates_earlier (v : list T) :
  (RemoveDuplicates v).1 = without_earlier_seen v.
Proof.
  unfold RemoveDuplicates, without_earlier_seen. simpl.
  apply (remove_if_seen_earlier ∅ []). set_solver.
Qed.
End RemoveDuplicates_facts.

(** ** [remove_intersection] *)

Section remove_intersection_facts.
Context {T : Type} (to_int : T → Z).

Lemma remove_intersection_sublist a b :
  (remove_intersection to_int a b).1 `sublist_of` a.
Proof. apply sublist_filter. Qed.

Lemma remove_intersection_common a b x :
  x ∈ a → x ∈ b → x ∉ (remove_intersection to_int a b).1.
Proof.
  intros Ha Hb [Hkeep _]%list_elem_of_filter. revert Hkeep.
  unfold in_both, insert_range. rewrite bool_decide_eq_false.
  rewrite !multiplicity_disj_union, multiplicity_empty.
  assert (0 < multiplicity (to_int x) (list_to_set_disj (to_int <$> a))).
  { apply elem_of_multiplicity, elem_of_list_to_set_disj.
    by apply list_elem_of_fmap_2. }
  assert (0 < multiplicity (to_int x) (list_to_set_disj (to_int <$> b))).
  { apply elem_of_multiplicity, elem_of_list_to_set_disj.
    by apply list_elem_of_fmap_2. }
  lia.
Qed.

Lemma multiplicity_list_to_set_disj (z : Z) (l : list Z) :
  multiplicity z (list_to_set_disj l) = length (filter (λ y, y = z) l).
Proof.
  induction l as [|y l IH]; [by rewrite list_to_set_disj_nil|].
  rewrite list_to_set_disj_cons, multiplicity_disj_union, IH.
  rewrite multiplicity_singleton, filter_cons.
  destruct (decide (y = z)) as [->|Hne].
  - by rewrite decide_True.
  - by rewrite decide_False by congruence.
Qed.

(** What [remove_intersection] keeps: the elements of [a] whose value is
    counted once in [a] and [b] together. *)
Lemma remove_intersection_elem_of a b x :
  x ∈ (remove_intersection to_int a b).1
  ↔ x ∈ a
    ∧ length (filter (λ y, y = to_int x) (to_int <$> (a ++ b))) = 1.
Proof.
  unfold remove_intersection, in_both, insert_range. simpl.
  rewrite list_elem_of_filter, bool_decide_eq_false.
  rewrite !multiplicity_disj_union, multiplicity_empty.
  rewrite !multiplicity_list_to_set_disj, fmap_app, filter_app, length_app.
  split.
  - intros [Hle Ha]. split; [done|].
    assert (0 < length (filter (λ y, y = to_int x) (to_int <$> a))).
    { apply (list_elem_of_fmap_2 to_int) in Ha.
      assert (Hin : to_int x ∈ filter (λ y, y = to_int x) (to_int <$> a))
        by (by apply list_elem_of_filter).
      destruct (filter _ (to_int <$> a)); [by apply elem_of_nil in Hin|].
      simpl. lia. }
    lia.
  - intros [Ha Hone]. split; [lia|done].
Qed.
End remove_intersection_facts.

(** ** Further properties of the specification *)

(** Applying the identity permutation leaves the sequence unchanged. *)
Lemma reorder_identity {T} fuel (v : list T) :
  length v ≤ fuel →
  reorder fuel v (seq 0 (length v)) = Done (v, seq 0 (length v)).
Proof.
  intros Hfuel.
  destruct (reorder_gathers fuel v (seq 0 (length v)))
    as (v' & -> & Hlen & Hg); [|done|].
  { split_and!; [apply length_seq|apply NoDup_seq|apply Forall_seq; lia]. }
  do 2 f_equal. apply list_eq. intros i.
  destruct (decide (i < length v)) as [Hi|Hi].
  - apply Hg. by apply lookup_seq_lt.
  - rewrite !(proj2 (lookup_ge_None _ _)); [done|lia..].
Qed.

(** Reordering the keys themselves by [sort_indices] sorts them. *)
Lemma reorder_by_sort_indices_sorts {T} (ltb : T → T → bool) fuel keys :
  strict_weak_order ltb → length keys ≤ fuel →
  ∃ keys',
    reorder fuel keys (sort_indices ltb keys)
      = Done (keys', sort_indices ltb keys)
    ∧ keys' ≡ₚ keys
    ∧ ∀ p q x y, p < q → keys' !! p = Some x → keys' !! q = Some y →
        leb_of ltb x y = true.
Proof.
  intros Hswo Hfuel.
  pose proof (sort_indices_bijection ltb keys) as Hbij.
  destruct (reorder_gathers fuel keys _ Hbij Hfuel) as (keys' & Hrun & Hlen & Hg).
  exists keys'. split_and!; [done|by eapply gather_Permutation|].
  intros p q x y Hpq Hp Hq.
  assert (Hpn : p < length keys) by (rewrite <- Hlen; by eapply lookup_lt_Some).
  assert (Hqn : q < length keys) by (rewrite <- Hlen; by eapply lookup_lt_Some).
  destruct (bijection_total _ _ Hbij p Hpn) as (i & Hi & _).
  destruct (bijection_total _ _ Hbij q Hqn) as (j & Hj & _).
  destruct (sort_indices_sorted ltb keys Hswo p q i j Hpq Hi Hj)
    as (x' & y' & Hx' & Hy' & Hle).
  rewrite (Hg p i Hi) in Hp. rewrite (Hg q j Hj) in Hq. congruence.
Qed.

Example sort_then_reorder_example :
  sort_indices Z.ltb [5; 4; 3; 2; 0; 1]%Z = [4; 5; 3; 2; 1; 0]
  ∧ reorder 6 [10; 11; 12; 13; 14; 15] [4; 5; 3; 2; 1; 0]
    = Done ([14; 15; 13; 12; 11; 10], [4; 5; 3; 2; 1; 0]).
Proof. split; reflexivity. Qed.

Example empty_inputs :
  sort_indices Z.ltb [] = []
  ∧ RemoveDuplicates (@nil nat) = ([], 0)
  ∧ reorder 0 (@nil nat) [] = Done ([], [])
  ∧ reorder_destructive (-1) 1 [] (@nil nat) = Done ([], []).
Proof. split_and!; reflexivity. Qed.

(** The bijection is needed: on the table [1 1] the [while] loop of
    [reorder] never reaches [j == i], whatever the fuel, and
    [reorder_destructive] follows the sentinel out of the buffer. *)
Lemma reorder_cycle_stuck {T} fuel (v : list T) done :
  length v = 2 → length done = 2 →
  reorder_cycle fuel [1; 1] 0 v done 1 1 = OutOfFuel.
Proof.
  revert v done. induction fuel as [|fuel IH]; intros v done Hv Hdone;
    [reflexivity|].
  destruct v as [|a [|b [|]]]; simplify_eq/=.
  destruct done as [|c [|d [|]]]; simplify_eq/=.
  by apply IH.
Qed.

Lemma reorder_diverges_on_non_bijection {T} fuel (a b : T) :
  reorder fuel [a; b] [1; 1] = OutOfFuel.
Proof.
  destruct fuel as [|fuel]; [done|].
  unfold reorder. simpl. by rewrite reorder_cycle_stuck.
Qed.

Example reorder_destructive_undefined_on_non_bijection :
  reorder_destructive (-1) 5 [1; 1]%Z [10; 20] = Undefined.
Proof. reflexivity. Qed.

(** ** The claims of the specification *)

(** The table [2 0 3 1] of the source's own example and its inverse. *)
Lemma bijection_2031 : bijection 4 [2; 0; 3; 1].
Proof. by apply (bool_decide_unpack _). Qed.

Lemma bijection_1302 : bijection 4 [1; 3; 0; 2].
Proof. by apply (bool_decide_unpack _). Qed.

Lemma inverse_of_2031 : inverse_of [2; 0; 3; 1] [1; 3; 0; 2].
Proof. intros [|[|[|[|i]]]] j Hj; by simplify_eq/=. Qed.

(** In the theorems on [reorder_destructive], [neg1] is the sentinel of the
    index type; it lies outside [[0, n)], as [-1] does. *)
Lemma minus_one_outside n : ¬ (0 ≤ -1 < Z.of_nat n)%Z.
Proof. lia. Qed.

(** C1 fails on the code: on equal copies of [v = 1 2 3 4] and
    [p = 2 0 3 1], [reorder] leaves [3 1 4 2] in [v], and
    [reorder_destructive], which the source introduces as a variant of
    [reorder], leaves [2 4 1 3]. *)
Lemma C1_applicators_disagree_on_equal_copies :
  bijection 4 [2; 0; 3; 1]
  ∧ reorder 5 [1; 2; 3; 4] [2; 0; 3; 1] = Done ([3; 1; 4; 2], [2; 0; 3; 1])
  ∧ reorder_destructive (-1) 5 (as_index [2; 0; 3; 1]) [1; 2; 3; 4]
    = Done ([2; -1; -1; -1]%Z, [2; 4; 1; 3])
  ∧ [3; 1; 4; 2] ≠ [2; 4; 1; 3].
Proof. split_and!; [apply bijection_2031|reflexivity|reflexivity|done]. Qed.

(** The extent of the disagreement: on a table [p], [reorder_destructive]
    leaves what [reorder] leaves on the inverse table of [p]; the two agree
    on equal copies of [p] only where [p] is its own inverse. *)
Lemma reorder_destructive_is_reorder_by_inverse {T} neg1 fuel (v : list T)
    p q :
  bijection (length v) p → bijection (length v) q → inverse_of p q →
  ¬ (0 ≤ neg1 < Z.of_nat (length v))%Z → length v < fuel →
  ∃ v' order',
    reorder fuel v q = Done (v', q)
    ∧ reorder_destructive neg1 fuel (as_index p) v = Done (order', v').
Proof.
  intros Hp Hq Hinv Hneg1 Hfuel.
  destruct (reorder_gathers fuel v q Hq) as (v1 & Hrun1 & Hlen1 & Hg); [lia|].
  destruct (reorder_destructive_scatters neg1 fuel v p Hp Hneg1 Hfuel)
    as (order' & v2 & Hrun2 & Hlen2 & _ & Hs & _).
  exists v1, order'. split; [done|]. rewrite Hrun2. do 2 f_equal.
  apply list_eq. intros i.
  destruct (decide (i < length v)) as [Hi|Hi].
  - destruct (bijection_total _ _ Hq i Hi) as (j & Hj & _).
    rewrite (Hs j i (Hinv i j Hj)). symmetry. by apply Hg.
  - rewrite !(proj2 (lookup_ge_None _ _)); [done|lia..].
Qed.

(** C2: for every sequence [v] and every bijection [order] on
    [[0, length v)], [reorder(v, order)] returns and leaves at each position
    [i] the element that was at position [order[i]]; and
    [reorder([1,2,3,4], [2,0,3,1])] yields [[3,1,4,2]]. *)
Theorem C2_reorder_gathers :
  (∀ T fuel (v : list T) order,
     bijection (length v) order → length v ≤ fuel →
     ∃ v', reorder fuel v order = Done (v', order)
       ∧ length v' = length v
       ∧ ∀ i j, order !! i = Some j → v' !! i = v !! j)
  ∧ reorder 4 [1; 2; 3; 4] [2; 0; 3; 1] = Done ([3; 1; 4; 2], [2; 0; 3; 1]).
Proof. split; [intros T; apply reorder_gathers|reflexivity]. Qed.

Lemma C2_witness :
  bijection 3 [1; 2; 0]
  ∧ ∃ v', reorder 3 [10; 20; 30] [1; 2; 0] = Done (v', [1; 2; 0])
      ∧ length v' = 3
      ∧ ∀ i j, [1; 2; 0] !! i = Some j → v' !! i = [10; 20; 30] !! j.
Proof.
  assert (Hb : bijection 3 [1; 2; 0]) by (by apply (bool_decide_unpack _)).
  split; [exact Hb|].
  apply (proj1 C2_reorder_gathers nat 3 [10; 20; 30] [1; 2; 0] Hb).
  simpl. lia.
Defined.

(** C3: for every key sequence, on a [<] that is a strict weak ordering,
    [sort_indices(keys)] is a permutation of [[0, keys.length)], the keys read
    through it never decrease, and of two positions [a < b] with equal keys
    [a] appears before [b] in it. *)
Theorem C3_sort_indices_sorted_stable {T} (ltb : T → T → bool) (keys : list T) :
  strict_weak_order ltb →
  bijection (length keys) (sort_indices ltb keys)
  ∧ nondecreasing_through ltb keys (sort_indices ltb keys)
  ∧ ∀ a b x, a < b → keys !! a = Some x → keys !! b = Some x →
      appears_before a b (sort_indices ltb keys).
Proof.
  intros Hswo. split_and!.
  - apply sort_indices_bijection.
  - by apply sort_indices_sorted.
  - intros a b x. apply sort_indices_stable. apply Hswo.
Qed.

Lemma strict_weak_order_Zlt : strict_weak_order Z.ltb.
Proof.
  split.
  - intros x y. rewrite Z.ltb_lt, Z.ltb_ge. lia.
  - intros x y z. unfold leb_of. rewrite !negb_true_iff, !Z.ltb_ge. lia.
Qed.

Lemma C3_witness :
  strict_weak_order Z.ltb
  ∧ bijection 4 (sort_indices Z.ltb [2; 1; 2; 1]%Z)
  ∧ nondecreasing_through Z.ltb [2; 1; 2; 1]%Z
      (sort_indices Z.ltb [2; 1; 2; 1]%Z)
  ∧ ∀ a b x, a < b → [2; 1; 2; 1]%Z !! a = Some x →
      [2; 1; 2; 1]%Z !! b = Some x →
      appears_before a b (sort_indices Z.ltb [2; 1; 2; 1]%Z).
Proof.
  split; [apply strict_weak_order_Zlt|].
  apply (C3_sort_indices_sorted_stable Z.ltb [2; 1; 2; 1]%Z).
  apply strict_weak_order_Zlt.
Defined.

Example sort_indices_ties :
  sort_indices Z.ltb [2; 1; 2; 1]%Z = [1; 3; 0; 2].
Proof. reflexivity. Qed.

(** C4, as stated, fails: after [reorder_destructive] on [p = 2 0 3 1] the
    buffer holds [2 -1 -1 -1]; position 0 keeps the valid index 2. *)
Lemma C4_counterexample :
  bijection 4 [2; 0; 3; 1]
  ∧ reorder_destructive (-1) 5 (as_index [2; 0; 3; 1]) [1; 2; 3; 4]
    = Done ([2; -1; -1; -1]%Z, [2; 4; 1; 3])
  ∧ ¬ Forall (λ d, d = (-1)%Z) [2; -1; -1; -1]%Z.
Proof.
  split_and!; [apply bijection_2031|reflexivity|].
  intros Hall. by apply Forall_cons_1 in Hall as [? _].
Qed.

(** C4, amended: for every bijection [order] of matching length, after
    [reorder_destructive] runs to completion every position of [order] that
    is not the smallest index of its cycle holds the sentinel ([-1]), and
    the smallest index of each cycle still holds its original entry. *)
Theorem C4_destructive_marks_all_but_cycle_starts {T} neg1 fuel (v : list T)
    order :
  bijection (length v) order →
  ¬ (0 ≤ neg1 < Z.of_nat (length v))%Z → length v < fuel →
  ∃ order' v',
    reorder_destructive neg1 fuel (as_index order) v = Done (order', v')
    ∧ length order' = length v
    ∧ ∀ k, k < length v →
        (order' !! k = Some neg1 ∧ ¬ cycle_min order k)
        ∨ (order' !! k = Z.of_nat <$> order !! k ∧ cycle_min order k).
Proof.
  intros Hbij Hneg1 Hfuel.
  destruct (reorder_destructive_scatters neg1 fuel v order Hbij Hneg1 Hfuel)
    as (order' & v' & Hrun & _ & Hlen & _ & Hmarks).
  by exists order', v'.
Qed.

Lemma C4_witness :
  bijection 4 [2; 0; 3; 1]
  ∧ ∃ order' v',
      reorder_destructive (-1) 5 (as_index [2; 0; 3; 1]) [1; 2; 3; 4]
      = Done (order', v')
      ∧ length order' = 4
      ∧ ∀ k, k < 4 →
          (order' !! k = Some (-1)%Z ∧ ¬ cycle_min [2; 0; 3; 1] k)
          ∨ (order' !! k = Z.of_nat <$> [2; 0; 3; 1] !! k
             ∧ cycle_min [2; 0; 3; 1] k).
Proof.
  split; [apply bijection_2031|].
  apply (C4_destructive_marks_all_but_cycle_starts (-1) 5 [1; 2; 3; 4]
           [2; 0; 3; 1]).
  - apply bijection_2031.
  - apply minus_one_outside.
  - simpl. lia.
Defined.

(** C5: for every sequence [v] and every bijection [order] of matching
    length, [reorder] and [reorder_destructive] both return and leave in [v]
    a rearrangement of its values: the multiset of values is unchanged. *)
Theorem C5_applicators_keep_the_multiset {T} neg1 fuel (v : list T) order :
  bijection (length v) order →
  ¬ (0 ≤ neg1 < Z.of_nat (length v))%Z → length v < fuel →
  (∃ v', reorder fuel v order = Done (v', order) ∧ v' ≡ₚ v)
  ∧ (∃ order' v',
       reorder_destructive neg1 fuel (as_index order) v = Done (order', v')
       ∧ v' ≡ₚ v).
Proof.
  intros Hbij Hneg1 Hfuel. split.
  - destruct (reorder_gathers fuel v order Hbij) as (v' & Hrun & Hlen & Hg);
      [lia|].
    exists v'. split; [done|]. by apply (gather_Permutation v v' order).
  - destruct (reorder_destructive_scatters neg1 fuel v order Hbij Hneg1 Hfuel)
      as (order' & v' & Hrun & Hlen & _ & Hs & _).
    exists order', v'. split; [done|]. symmetry.
    apply (gather_Permutation v' v order); [by rewrite Hlen|done|].
    intros i j Hij. symmetry. by apply Hs.
Qed.

Lemma C5_witness :
  bijection 4 [2; 0; 3; 1]
  ∧ (∃ v', reorder 5 [7; 7; 8; 9] [2; 0; 3; 1] = Done (v', [2; 0; 3; 1])
       ∧ v' ≡ₚ [7; 7; 8; 9])
  ∧ (∃ order' v',
       reorder_destructive (-1) 5 (as_index [2; 0; 3; 1]) [7; 7; 8; 9]
       = Done (order', v')
       ∧ v' ≡ₚ [7; 7; 8; 9]).
Proof.
  split; [apply bijection_2031|].
  apply (C5_applicators_keep_the_multiset (-1) 5 [7; 7; 8; 9] [2; 0; 3; 1]).
  - apply bijection_2031.
  - apply minus_one_outside.
  - simpl. lia.
Defined.

(** C6: for every sequence [v] and every bijection [order] of matching
    length, [reorder(v, order)] returns with [order] as it was before the
    call. *)
Theorem C6_reorder_leaves_order {T} fuel (v : list T) order :
  bijection (length v) order → length v ≤ fuel →
  ∃ v' order', reorder fuel v order = Done (v', order') ∧ order' = order.
Proof.
  intros Hbij Hfuel.
  destruct (reorder_gathers fuel v order Hbij Hfuel) as (v' & Hrun & _).
  by exists v', order.
Qed.

Lemma C6_witness :
  bijection 4 [2; 0; 3; 1]
  ∧ ∃ v' order',
      reorder 4 [1; 2; 3; 4] [2; 0; 3; 1] = Done (v', order')
      ∧ order' = [2; 0; 3; 1].
Proof.
  split; [apply bijection_2031|].
  apply (C6_reorder_leaves_order 4 [1; 2; 3; 4] [2; 0; 3; 1]).
  - apply bijection_2031.
  - simpl. lia.
Defined.

(** C7 fails on the code: the value 2 occurs in [a = 1 2 2 3] and not in
    [b = 3 4], and [remove_intersection] removes both of its occurrences
    from [a] together with the common value 3; the claim leaves [1 2 2]. *)
Lemma C7_remove_intersection_drops_repeats_within_a :
  remove_intersection id [1; 2; 2; 3]%Z [3; 4]%Z = ([1]%Z, [3; 4]%Z)
  ∧ 2%Z ∈ [1; 2; 2; 3]%Z ∧ 2%Z ∉ [3; 4]%Z.
Proof. split_and!; [by vm_compute|set_solver..]. Qed.

(** C8: [RemoveDuplicates(v)] removes exactly the elements whose value has
    already appeared earlier in [v], so that the first occurrence of each
    value is kept and the kept elements stay in order, and it returns the
    new length; on a [v] without repeats it returns the length of [v] and
    leaves [v] as it is, and a second application changes nothing. *)
Theorem C8_RemoveDuplicates_keeps_first_occurrences `{Countable T}
    (v : list T) :
  (RemoveDuplicates v).1 = without_earlier_seen v
  ∧ (RemoveDuplicates v).1 `sublist_of` v
  ∧ NoDup (RemoveDuplicates v).1
  ∧ (∀ x, x ∈ (RemoveDuplicates v).1 ↔ x ∈ v)
  ∧ (RemoveDuplicates v).2 = length (RemoveDuplicates v).1
  ∧ (NoDup v → RemoveDuplicates v = (v, length v))
  ∧ RemoveDuplicates (RemoveDuplicates v).1 = RemoveDuplicates v.
Proof.
  assert (Hfresh : ∀ l : list T, NoDup l → RemoveDuplicates l = (l, length l)).
  { intros l Hl. unfold RemoveDuplicates.
    by rewrite remove_if_seen_fresh by (done || set_solver). }
  split_and!.
  - apply RemoveDuplicates_earlier.
  - apply remove_if_seen_sublist.
  - apply remove_if_seen_NoDup.
  - intros x. unfold RemoveDuplicates. simpl.
    rewrite remove_if_seen_elem_of. set_solver.
  - done.
  - apply Hfresh.
  - rewrite Hfresh by apply remove_if_seen_NoDup. done.
Qed.

Lemma C8_witness :
  NoDup [3; 1; 2]
  ∧ RemoveDuplicates [3; 1; 2] = ([3; 1; 2], 3)
  ∧ RemoveDuplicates [1; 2; 1; 3; 2] = ([1; 2; 3], 3).
Proof.
  assert (Hnd : NoDup [3; 1; 2]) by (by apply (bool_decide_unpack _)).
  split_and!; [exact Hnd| |by vm_compute].
  apply (C8_RemoveDuplicates_keeps_first_occurrences [3; 1; 2]), Hnd.
Defined.

(** C9: for every sequence [v] and every bijection [order] of matching
    length, [reorder] and [reorder_destructive] run to completion: with
    fuel above the length of [v] no loop of either runs out of it, and no
    access leaves the bounds. *)
Theorem C9_applicators_terminate {T} neg1 fuel (v : list T) order :
  bijection (length v) order →
  ¬ (0 ≤ neg1 < Z.of_nat (length v))%Z → length v < fuel →
  (∃ r, reorder fuel v order = Done r)
  ∧ (∃ r, reorder_destructive neg1 fuel (as_index order) v = Done r).
Proof.
  intros Hbij Hneg1 Hfuel. split.
  - destruct (reorder_gathers fuel v order Hbij) as (v' & Hrun & _); [lia|].
    by eexists.
  - destruct (reorder_destructive_scatters neg1 fuel v order Hbij Hneg1 Hfuel)
      as (order' & v' & Hrun & _).
    by eexists.
Qed.

Lemma C9_witness :
  bijection 4 [2; 0; 3; 1]
  ∧ (∃ r, reorder 5 [1; 2; 3; 4] [2; 0; 3; 1] = Done r)
  ∧ (∃ r, reorder_destructive (-1) 5 (as_index [2; 0; 3; 1]) [1; 2; 3; 4]
          = Done r).
Proof.
  split; [apply bijection_2031|].
  apply (C9_applicators_terminate (-1) 5 [1; 2; 3; 4] [2; 0; 3; 1]).
  - apply bijection_2031.
  - apply minus_one_outside.
  - simpl. lia.
Defined.

(** C10: for every sequence [v] and every bijection [order] of matching
    length, [reorder_destructive] returns and the element that was at
    position [i] is then at position [order[i]]. *)
Theorem C10_destructive_scatters {T} neg1 fuel (v : list T) order :
  bijection (length v) order →
  ¬ (0 ≤ neg1 < Z.of_nat (length v))%Z → length v < fuel →
  ∃ order' v',
    reorder_destructive neg1 fuel (as_index order) v = Done (order', v')
    ∧ length v' = length v
    ∧ ∀ i j, order !! i = Some j → v' !! j = v !! i.
Proof.
  intros Hbij Hneg1 Hfuel.
  destruct (reorder_destructive_scatters neg1 fuel v order Hbij Hneg1 Hfuel)
    as (order' & v' & Hrun & Hlen & _ & Hs & _).
  by exists order', v'.
Qed.

Lemma C10_witness :
  bijection 4 [2; 0; 3; 1]
  ∧ ∃ order' v',
      reorder_destructive (-1) 5 (as_index [2; 0; 3; 1]) [1; 2; 3; 4]
      = Done (order', v')
      ∧ length v' = 4
      ∧ ∀ i j, [2; 0; 3; 1] !! i = Some j → v' !! j = [1; 2; 3; 4] !! i.
Proof.
  split; [apply bijection_2031|].
  apply (C10_destructive_scatters (-1) 5 [1; 2; 3; 4] [2; 0; 3; 1]).
  - apply bijection_2031.
  - apply minus_one_outside.
  - simpl. lia.
Defined.

(** ** Beyond the claims: what the code shows besides *)

Lemma load_Done {A} (l : list A) i x : load l i = Done x → l !! i = Some x.
Proof. unfold load. destruct (l !! i); naive_solver. Qed.

Lemma store_Done {A} (l l' : list A) i x :
  store l i x = Done l' → i < length l ∧ l' = <[i:=x]> l.
Proof. unfold store. case_decide; naive_solver. Qed.

Lemma bind_Done {A B} (m : outcome A) (f : A → outcome B) b :
  m ≫= f = Done b → ∃ a, m = Done a ∧ f a = Done b.
Proof. destruct m as [a| |]; [|done..]. intros Hf. by exists a. Qed.

Lemma swap_at_Done {T} (v v' : list T) a b :
  swap_at v a b = Done v' → a < length v ∧ b < length v ∧ length v' = length v.
Proof.
  unfold swap_at.
  intros (x & Hx%load_Done & (y & Hy%load_Done & (v1 & [Ha ->]%store_Done
            & [Hb ->]%store_Done)%bind_Done)%bind_Done)%bind_Done.
  rewrite length_insert in Hb. by rewrite !length_insert.
Qed.

Lemma mark_keeps (done : list bool) j k :
  j < length done → done !! k = Some true → <[j:=true]> done !! k = Some true.
Proof.
  intros Hj Hk. destruct (decide (j = k)) as [->|].
  - by apply list_lookup_insert_eq.
  - by rewrite list_lookup_insert_ne.
Qed.

Section reorder_only_on_bijections.
Context {T : Type}.
Variables (n : nat) (order : list nat).

Lemma reorder_cycle_Done fuel i (v v' : list T) done done' prev_j j :
  reorder_cycle fuel order i v done prev_j j = Done (v', done') →
  length v = n → walking_inv n order i done prev_j j →
  visited_inv n order done' ∧ length v' = n
  ∧ ∀ k, done !! k = Some true → done' !! k = Some true.
Proof.
  revert v done prev_j j.
  induction fuel as [|fuel IH]; intros v done prev_j j Hrun Hlv Hinv;
    [discriminate|].
  destruct Hinv as [Hld Hstart Hprev Hnext Hread Hpre].
  assert (Hi : i < n) by (rewrite <- Hld; by eapply lookup_lt_Some).
  simpl in Hrun. destruct (decide (i = j)) as [<-|Hij].
  { simplify_eq. split_and!; [split| |]; try done.
    - intros k Hk. destruct (decide (k = prev_j)) as [->|]; eauto.
    - intros k Hk. destruct (decide (k = i)) as [->|]; eauto. }
  apply bind_Done in Hrun as (v1 & (_ & Hj & Hlv1)%swap_at_Done & Hrun).
  apply bind_Done in Hrun as (done1 & [_ ->]%store_Done & Hrun).
  apply bind_Done in Hrun as (j1 & Hj1%load_Done & Hrun).
  assert (Hjd : j < length done) by lia.
  destruct (IH _ _ _ _ Hrun) as (Hvis & Hlv' & Hmono); [lia| |].
  { split.
    - by rewrite length_insert.
    - by apply mark_keeps.
    - lia.
    - done.
    - intros k Hk Hkj. rewrite list_lookup_insert_ne in Hk by done.
      destruct (decide (k = prev_j)) as [->|]; [|by apply Hread].
      exists j. split; [done|lia].
    - intros k Hk Hki. destruct (decide (k = j)) as [->|Hkj]; [by eauto|].
      rewrite list_lookup_insert_ne in Hk by done. by apply Hpre. }
  split_and!; [done..|]. intros k Hk. by apply Hmono, mark_keeps.
Qed.

Lemma reorder_body_Done fuel i (v v' : list T) done done' :
  reorder_body fuel order (v, done) i = Done (v', done') →
  length v = n → i < n → visited_inv n order done →
  visited_inv n order done' ∧ length v' = n
  ∧ done' !! i = Some true
  ∧ ∀ k, done !! k = Some true → done' !! k = Some true.
Proof.
  intros Hrun Hlv Hi [Hld Hread Hpre]. unfold reorder_body in Hrun.
  apply bind_Done in Hrun as (b & Hb%load_Done & Hrun). destruct b.
  { by simplify_eq. }
  apply bind_Done in Hrun as (done1 & [_ ->]%store_Done & Hrun).
  apply bind_Done in Hrun as (j & Hj%load_Done & Hrun).
  destruct (reorder_cycle_Done _ _ _ _ _ _ _ _ Hrun Hlv)
    as (Hvis & Hlv' & Hmono).
  { split.
    - by rewrite length_insert.
    - apply list_lookup_insert_eq. lia.
    - done.
    - done.
    - intros k Hk Hki. rewrite list_lookup_insert_ne in Hk by done.
      by apply Hread.
    - intros k Hk Hki. rewrite list_lookup_insert_ne in Hk by done.
      by apply Hpre. }
  split_and!; [done..| |].
  - apply Hmono, list_lookup_insert_eq. lia.
  - intros k Hk. apply Hmono, mark_keeps; [lia|done].
Qed.

Lemma reorder_loop_Done fuel m i (v v' : list T) done done' :
  for_each (reorder_body fuel order) (v, done) (seq i m) = Done (v', done') →
  i + m = n → length v = n → visited_inv n order done →
  (∀ k, k < i → done !! k = Some true) →
  visited_inv n order done' ∧ ∀ k, k < n → done' !! k = Some true.
Proof.
  revert i v done. induction m as [|m IH]; intros i v done Hrun Him Hlv Hvis Hlow.
  { simpl in Hrun. simplify_eq. split; [done|].
    intros k Hk. apply Hlow. lia. }
  cbn [seq for_each] in Hrun.
  apply bind_Done in Hrun as ([v1 done1] & Hbody & Hrun).
  destruct (reorder_body_Done _ _ _ _ _ _ Hbody Hlv) as (Hvis1 & Hlv1 & Hi & Hmono);
    [lia|done|].
  apply (IH _ _ _ Hrun); [lia|done..|].
  intros k Hk. destruct (decide (k = i)) as [->|]; [done|].
  apply Hmono, Hlow. lia.
Qed.
End reorder_only_on_bijections.

(** X1: [reorder] returns only on a bijection.  Whenever a call
    [reorder(v, order)] runs to completion, [order] has at least as many
    entries as [v] and its first [v.size()] entries are a permutation of
    [[0, v.size())]; on any other [order] the call reads or writes outside a
    vector or never leaves its [while] loop. *)
Theorem X1_reorder_returns_only_on_bijections {T} fuel (v : list T) order r :
  reorder fuel v order = Done r →
  length v ≤ length order ∧ bijection (length v) (take (length v) order).
Proof.
  unfold reorder. intros ([v' done'] & Hrun & _)%bind_Done.
  destruct (reorder_loop_Done (length v) order _ _ _ _ _ _ _ Hrun)
    as ([Hld Hread Hpre] & Hall); [done..| | |].
  { split.
    - apply length_replicate.
    - by intros k [? _]%lookup_replicate.
    - by intros k [? _]%lookup_replicate. }
  { lia. }
  assert (Hlen : length v ≤ length order).
  { destruct (length v) as [|n'] eqn:Hn; [lia|].
    destruct (Hread n') as (j & Hj%lookup_lt_Some & _); [apply Hall; lia|lia]. }
  split; [done|].
  assert (Hlt : length (take (length v) order) = length v)
    by (rewrite length_take; lia).
  assert (Hseq : seq 0 (length v) ≡ₚ take (length v) order).
  { apply submseteq_length_Permutation; [|by rewrite length_seq, Hlt].
    apply NoDup_submseteq; [apply NoDup_seq|].
    intros k [_ Hk]%elem_of_seq. simpl in Hk.
    destruct (Hpre k (Hall k Hk)) as (p & Hp & Hpk).
    apply list_elem_of_lookup. exists p. by rewrite lookup_take_lt. }
  split_and!; [done| |].
  - rewrite <- Hseq. apply NoDup_seq.
  - rewrite <- Hseq. apply Forall_seq. lia.
Qed.

Lemma X1_witness :
  reorder 3 [10; 20; 30] [1; 2; 0; 7] = Done ([20; 30; 10], [1; 2; 0; 7])
  ∧ 3 ≤ 4 ∧ bijection 3 (take 3 [1; 2; 0; 7]).
Proof.
  assert (Hrun : reorder 3 [10; 20; 30] [1; 2; 0; 7]
                 = Done ([20; 30; 10], [1; 2; 0; 7])) by reflexivity.
  split; [exact Hrun|].
  apply (X1_reorder_returns_only_on_bijections 3 [10; 20; 30] [1; 2; 0; 7] _
           Hrun).
Defined.

(** *** Composition and round trips of the two applicators *)

Lemma omap_lookup_all {A B} (f : A → option B) l i :
  Forall (λ x, is_Some (f x)) l → omap f l !! i = l !! i ≫= f.
Proof.
  intros Hall. revert i. induction Hall as [|x l [y Hy] _ IH]; intros i.
  { done. }
  cbn [omap list_omap]. rewrite Hy. destruct i as [|i]; simpl; [done|].
  apply IH.
Qed.

Section compose_tables_facts.
Variables (n : nat) (p q : list nat).
Hypothesis Hp : bijection n p.
Hypothesis Hq : bijection n q.

Lemma compose_tables_lookup i :
  compose_tables p q !! i = q !! i ≫= λ j, p !! j.
Proof.
  apply omap_lookup_all. apply Forall_lookup. intros k j Hj.
  destruct (bijection_lookup_lt _ _ Hq _ _ Hj) as [_ Hjn].
  destruct (bijection_total _ _ Hp j Hjn) as (x & -> & _). by eexists.
Qed.

Lemma compose_tables_Some i x :
  compose_tables p q !! i = Some x ↔ ∃ j, q !! i = Some j ∧ p !! j = Some x.
Proof.
  rewrite compose_tables_lookup. destruct (q !! i) as [j|]; simpl.
  - split; [by exists j|by intros (? & [= <-] & ?)].
  - split; [done|by intros (? & ? & _)].
Qed.

Lemma compose_tables_bijection : bijection n (compose_tables p q).
Proof.
  split_and!.
  - destruct (decide (length (compose_tables p q) = n)) as [|Hne]; [done|].
    exfalso.
    destruct (decide (length (compose_tables p q) < n)) as [Hlt|Hge].
    + destruct (bijection_total _ _ Hq _ Hlt) as (j & Hj & Hjn).
      destruct (bijection_total _ _ Hp j Hjn) as (x & Hx & _).
      assert (compose_tables p q !! length (compose_tables p q) = Some x)
        as Hl%lookup_lt_Some by (apply compose_tables_Some; eauto).
      lia.
    + destruct (lookup_lt_is_Some_2 (compose_tables p q) n) as [x Hx]; [lia|].
      apply compose_tables_Some in Hx as (j & Hj & _).
      destruct (bijection_lookup_lt _ _ Hq _ _ Hj). lia.
  - apply NoDup_alt. intros i i' x (j & Hj & Hx)%compose_tables_Some
      (j' & Hj' & Hx')%compose_tables_Some.
    assert (j = j') as <- by (by eapply (bijection_inj n p)).
    by eapply (bijection_inj n q).
  - apply Forall_lookup. intros i x (j & _ & Hx)%compose_tables_Some.
    by destruct (bijection_lookup_lt _ _ Hp _ _ Hx).
Qed.
End compose_tables_facts.

(** A sequence is determined by what a bijection reads from it. *)
Lemma scatter_eq {T} (v w : list T) order :
  bijection (length v) order → length w = length v →
  (∀ i j, order !! i = Some j → w !! j = v !! j) → w = v.
Proof.
  intros Hbij Hlen Hs. apply list_eq. intros j.
  destruct (decide (j < length v)) as [Hj|Hj].
  - destruct (bijection_surj _ _ Hbij j Hj) as [i Hi]. by eapply Hs.
  - rewrite !(proj2 (lookup_ge_None _ _)); [done|lia..].
Qed.

(** X2: two calls of [reorder] compose.  Reordering by [p] and then by [q]
    leaves at each position [i] the element that was at [p[q[i]]], which is
    what one call of [reorder] with the composed table does. *)
Theorem X2_reorder_twice_composes {T} fuel (v : list T) p q :
  bijection (length v) p → bijection (length v) q → length v ≤ fuel →
  ∃ v1 v2,
    reorder fuel v p = Done (v1, p)
    ∧ reorder fuel v1 q = Done (v2, q)
    ∧ (∀ i j k, q !! i = Some j → p !! j = Some k → v2 !! i = v !! k)
    ∧ reorder fuel v (compose_tables p q) = Done (v2, compose_tables p q).
Proof.
  intros Hp Hq Hfuel.
  destruct (reorder_gathers fuel v p Hp Hfuel) as (v1 & Hrun1 & Hlen1 & Hg1).
  rewrite <- Hlen1 in Hq, Hfuel.
  destruct (reorder_gathers fuel v1 q Hq Hfuel) as (v2 & Hrun2 & Hlen2 & Hg2).
  rewrite Hlen1 in Hq, Hfuel.
  assert (Hboth : ∀ i j k, q !! i = Some j → p !! j = Some k →
                           v2 !! i = v !! k).
  { intros i j k Hj Hk. rewrite (Hg2 i j Hj). by apply Hg1. }
  exists v1, v2. split_and!; [done..|].
  pose proof (compose_tables_bijection _ p q Hp Hq) as Hpq.
  destruct (reorder_gathers fuel v _ Hpq Hfuel) as (v3 & -> & Hlen3 & Hg3).
  do 2 f_equal. apply list_eq. intros i.
  destruct (decide (i < length v)) as [Hi|Hi].
  - destruct (bijection_total _ _ Hpq i Hi) as (k & Hk & _).
    rewrite (Hg3 i k Hk).
    apply (compose_tables_Some _ p q Hp Hq) in Hk as (j & Hj & Hk).
    symmetry. by eapply Hboth.
  - rewrite !(proj2 (lookup_ge_None _ _)); [done|lia..].
Qed.

Lemma X2_witness :
  bijection 4 [2; 0; 3; 1] ∧ bijection 4 [1; 3; 0; 2]
  ∧ ∃ v1 v2,
      reorder 4 [5; 6; 7; 8] [2; 0; 3; 1] = Done (v1, [2; 0; 3; 1])
      ∧ reorder 4 v1 [1; 3; 0; 2] = Done (v2, [1; 3; 0; 2])
      ∧ (∀ i j k, [1; 3; 0; 2] !! i = Some j → [2; 0; 3; 1] !! j = Some k →
           v2 !! i = [5; 6; 7; 8] !! k)
      ∧ reorder 4 [5; 6; 7; 8] (compose_tables [2; 0; 3; 1] [1; 3; 0; 2])
        = Done (v2, compose_tables [2; 0; 3; 1] [1; 3; 0; 2]).
Proof.
  split_and!; [apply bijection_2031|apply bijection_1302|].
  apply (X2_reorder_twice_composes 4 [5; 6; 7; 8] [2; 0; 3; 1] [1; 3; 0; 2]).
  - apply bijection_2031.
  - apply bijection_1302.
  - simpl. lia.
Defined.

(** X3: [reorder] by the inverse table undoes [reorder].  After
    [reorder(v, p)] and then [reorder(v, q)], with [q] the inverse of [p],
    [v] holds what it held at first. *)
Theorem X3_reorder_by_inverse_restores {T} fuel (v : list T) p q :
  bijection (length v) p → bijection (length v) q → inverse_of p q →
  length v ≤ fuel →
  ∃ v1, reorder fuel v p = Done (v1, p) ∧ reorder fuel v1 q = Done (v, q).
Proof.
  intros Hp Hq Hinv Hfuel.
  destruct (reorder_gathers fuel v p Hp Hfuel) as (v1 & Hrun1 & Hlen1 & Hg1).
  rewrite <- Hlen1 in Hq, Hfuel.
  destruct (reorder_gathers fuel v1 q Hq Hfuel) as (v2 & Hrun2 & Hlen2 & Hg2).
  exists v1. split; [done|]. rewrite Hrun2. do 2 f_equal.
  apply list_eq. intros i.
  destruct (decide (i < length v1)) as [Hi|Hi].
  - destruct (bijection_total _ _ Hq i Hi) as (j & Hj & _).
    rewrite (Hg2 i j Hj). apply Hg1. by apply Hinv.
  - rewrite !(proj2 (lookup_ge_None _ _)); [done|lia..].
Qed.

Lemma X3_witness :
  bijection 4 [2; 0; 3; 1] ∧ bijection 4 [1; 3; 0; 2]
  ∧ inverse_of [2; 0; 3; 1] [1; 3; 0; 2]
  ∧ ∃ v1, reorder 4 [5; 6; 7; 8] [2; 0; 3; 1] = Done (v1, [2; 0; 3; 1])
      ∧ reorder 4 v1 [1; 3; 0; 2] = Done ([5; 6; 7; 8], [1; 3; 0; 2]).
Proof.
  split_and!; [apply bijection_2031|apply bijection_1302|apply inverse_of_2031|].
  apply (X3_reorder_by_inverse_restores 4 [5; 6; 7; 8] [2; 0; 3; 1]
           [1; 3; 0; 2]).
  - apply bijection_2031.
  - apply bijection_1302.
  - apply inverse_of_2031.
  - simpl. lia.
Defined.

(** X4: with the same table the two applicators undo each other.
    [reorder(v, p)] followed by [reorder_destructive] on a copy of [p], and
    [reorder_destructive] on a copy of [p] followed by [reorder(v, p)], both
    leave in [v] what it held at first. *)
Theorem X4_applicators_undo_each_other {T} neg1 fuel (v : list T) p :
  bijection (length v) p →
  ¬ (0 ≤ neg1 < Z.of_nat (length v))%Z → length v < fuel →
  (∃ v1 order',
     reorder fuel v p = Done (v1, p)
     ∧ reorder_destructive neg1 fuel (as_index p) v1 = Done (order', v))
  ∧ (∃ v1 order',
       reorder_destructive neg1 fuel (as_index p) v = Done (order', v1)
       ∧ reorder fuel v1 p = Done (v, p)).
Proof.
  intros Hp Hneg1 Hfuel. split.
  - destruct (reorder_gathers fuel v p Hp) as (v1 & Hrun1 & Hlen1 & Hg1);
      [lia|].
    rewrite <- Hlen1 in Hp, Hneg1, Hfuel.
    destruct (reorder_destructive_scatters neg1 fuel v1 p Hp Hneg1 Hfuel)
      as (order' & v2 & Hrun2 & Hlen2 & _ & Hs2 & _).
    exists v1, order'. split; [done|]. rewrite Hrun2. do 2 f_equal.
    rewrite Hlen1 in Hp.
    apply (scatter_eq v v2 p Hp); [lia|].
    intros i j Hij. rewrite (Hs2 i j Hij). by apply Hg1.
  - destruct (reorder_destructive_scatters neg1 fuel v p Hp Hneg1 Hfuel)
      as (order' & v1 & Hrun1 & Hlen1 & _ & Hs1 & _).
    rewrite <- Hlen1 in Hp, Hfuel.
    destruct (reorder_gathers fuel v1 p Hp) as (v2 & Hrun2 & Hlen2 & Hg2);
      [lia|].
    exists v1, order'. split; [done|]. rewrite Hrun2. do 2 f_equal.
    apply list_eq. intros i.
    destruct (decide (i < length v1)) as [Hi|Hi].
    + destruct (bijection_total _ _ Hp i Hi) as (j & Hj & _).
      rewrite (Hg2 i j Hj). by apply Hs1.
    + rewrite !(proj2 (lookup_ge_None _ _)); [done|lia..].
Qed.

Lemma X4_witness :
  bijection 4 [2; 0; 3; 1]
  ∧ (∃ v1 order',
       reorder 5 [5; 6; 7; 8] [2; 0; 3; 1] = Done (v1, [2; 0; 3; 1])
       ∧ reorder_destructive (-1) 5 (as_index [2; 0; 3; 1]) v1
         = Done (order', [5; 6; 7; 8]))
  ∧ (∃ v1 order',
       reorder_destructive (-1) 5 (as_index [2; 0; 3; 1]) [5; 6; 7; 8]
       = Done (order', v1)
       ∧ reorder 5 v1 [2; 0; 3; 1] = Done ([5; 6; 7; 8], [2; 0; 3; 1])).
Proof.
  split; [apply bijection_2031|].
  apply (X4_applicators_undo_each_other (-1) 5 [5; 6; 7; 8] [2; 0; 3; 1]).
  - apply bijection_2031.
  - apply minus_one_outside.
  - simpl. lia.
Defined.

(** X5: the identity permutation changes nothing.  [reorder] leaves [v] as
    it is, and [reorder_destructive] leaves [v] and also its order buffer as
    they are: every index is the first of its own cycle, so no entry is
    overwritten by the sentinel. *)
Theorem X5_identity_permutation_changes_nothing {T} neg1 fuel (v : list T) :
  ¬ (0 ≤ neg1 < Z.of_nat (length v))%Z → length v < fuel →
  reorder fuel v (seq 0 (length v)) = Done (v, seq 0 (length v))
  ∧ reorder_destructive neg1 fuel (as_index (seq 0 (length v))) v
    = Done (as_index (seq 0 (length v)), v).
Proof.
  intros Hneg1 Hfuel. split; [apply reorder_identity; lia|].
  assert (Hbij : bijection (length v) (seq 0 (length v))).
  { split_and!; [apply length_seq|apply NoDup_seq|apply Forall_seq; lia]. }
  destruct (reorder_destructive_scatters neg1 fuel v _ Hbij Hneg1 Hfuel)
    as (order' & v' & -> & Hlen & Hlo & Hs & Hmarks).
  do 2 f_equal.
  - apply list_eq. intros k.
    destruct (decide (k < length v)) as [Hk|Hk].
    + destruct (Hmarks k Hk) as [[_ Hnot]|[-> _]].
      * destruct Hnot. intros m j.
        rewrite walk_fixed by (apply lookup_seq; lia). naive_solver lia.
      * unfold as_index. by rewrite list_lookup_fmap.
    + unfold as_index.
      rewrite !(proj2 (lookup_ge_None _ _));
        [done|rewrite length_fmap, length_seq; lia|lia].
  - apply (scatter_eq v v' _ Hbij Hlen).
    intros i j Hij. assert (j = i) as -> by (apply lookup_seq in Hij; lia).
    by apply Hs.
Qed.

Lemma X5_witness :
  reorder 4 [5; 6; 7] [0; 1; 2] = Done ([5; 6; 7], [0; 1; 2])
  ∧ reorder_destructive (-1) 4 (as_index [0; 1; 2]) [5; 6; 7]
    = Done (as_index [0; 1; 2], [5; 6; 7]).
Proof.
  apply (X5_identity_permutation_changes_nothing (-1) 4 [5; 6; 7]).
  - apply minus_one_outside.
  - simpl. lia.
Defined.

(** *** [sort_indices] beyond sortedness and stability *)

Lemma stable_sort_of_sorted {A} (comp : A → A → bool) l :
  (∀ p x y, l !! p = Some x → l !! S p = Some y → comp y x = false) →
  stable_sort comp l = l.
Proof.
  induction l as [|x l IH]; intros Hadj; [done|].
  simpl. rewrite IH by (intros p; apply (Hadj (S p))).
  destruct l as [|y l]; [done|].
  simpl. by rewrite (Hadj 0 x y).
Qed.

Lemma StronglySorted_of_lookup {A} (R : relation A) l :
  (∀ p q x y, p < q → l !! p = Some x → l !! q = Some y → R x y) →
  StronglySorted R l.
Proof.
  induction l as [|x l IH]; intros Hord; [constructor|].
  apply StronglySorted_cons. split.
  - apply Forall_lookup. intros i y Hy. apply (Hord 0 (S i)); [lia|done..].
  - apply IH. intros p q a b Hpq. apply (Hord (S p) (S q)). lia.
Qed.

(** X6: for a [<] that is a strict weak ordering, on keys that are already
    in non-decreasing order [sort_indices] returns the identity permutation
    [0, 1, ..., n-1]: equal neighbours are not swapped. *)
Theorem X6_sort_indices_of_sorted_keys_is_identity {T} (ltb : T → T → bool)
    (keys : list T) :
  strict_weak_order ltb →
  (∀ p x y, keys !! p = Some x → keys !! S p = Some y →
     leb_of ltb x y = true) →
  sort_indices ltb keys = seq 0 (length keys).
Proof.
  intros _ Hadj. apply stable_sort_of_sorted.
  intros p a b [-> Hp]%lookup_seq [-> Hq]%lookup_seq. simpl in *.
  destruct (lookup_lt_is_Some_2 keys p) as [x Hx]; [lia|].
  destruct (lookup_lt_is_Some_2 keys (S p)) as [y Hy]; [lia|].
  unfold key_less. rewrite Hx, Hy.
  specialize (Hadj p x y Hx Hy). unfold leb_of in Hadj.
  by apply negb_true_iff in Hadj.
Qed.

Lemma X6_witness :
  strict_weak_order Z.ltb
  ∧ (∀ p x y, [1; 2; 2; 5]%Z !! p = Some x → [1; 2; 2; 5]%Z !! S p = Some y →
       leb_of Z.ltb x y = true)
  ∧ sort_indices Z.ltb [1; 2; 2; 5]%Z = seq 0 4.
Proof.
  assert (Hadj : ∀ p x y, [1; 2; 2; 5]%Z !! p = Some x →
            [1; 2; 2; 5]%Z !! S p = Some y → leb_of Z.ltb x y = true).
  { intros [|[|[|[|p]]]] x y Hx Hy; simplify_eq/=; reflexivity. }
  split_and!; [apply strict_weak_order_Zlt|exact Hadj|].
  apply (X6_sort_indices_of_sorted_keys_is_identity Z.ltb [1; 2; 2; 5]%Z
           strict_weak_order_Zlt Hadj).
Defined.

(** X7: the result of [sort_indices] is the only index vector with its
    three properties.  On a [<] that is a strict weak ordering, an index
    vector that is a permutation of [[0, n)], reads the keys in
    non-decreasing order and keeps positions with equivalent keys (neither
    less than the other) in their input order is the vector [sort_indices]
    returns. *)
Theorem X7_sort_indices_is_determined {T} (ltb : T → T → bool)
    (keys : list T) (idx : list nat) :
  strict_weak_order ltb →
  bijection (length keys) idx →
  nondecreasing_through ltb keys idx →
  (∀ a b x y, a < b → keys !! a = Some x → keys !! b = Some y →
     ltb x y = false → ltb y x = false → appears_before a b idx) →
  idx = sort_indices ltb keys.
Proof.
  intros Hswo Hbij Hsorted Hstable. apply sort_indices_unique; [done|..].
  - by apply bijection_Permutation.
  - apply StronglySorted_of_lookup. intros p q i j Hpq Hp Hq.
    destruct (Hsorted p q i j Hpq Hp Hq) as (x & y & Hx & Hy & Hle).
    unfold key_less. rewrite Hx, Hy. unfold leb_of in Hle.
    by apply negb_true_iff in Hle.
  - intros a b (p & q & Hpq & [-> Hp]%lookup_seq & [-> Hq]%lookup_seq).
    simpl in *.
    destruct (lookup_lt_is_Some_2 keys p) as [x Hx]; [lia|].
    destruct (lookup_lt_is_Some_2 keys q) as [y Hy]; [lia|].
    unfold key_less. rewrite Hx, Hy. by apply Hstable.
Qed.

Lemma X7_witness :
  strict_weak_order Z.ltb
  ∧ bijection 4 [1; 3; 0; 2]
  ∧ nondecreasing_through Z.ltb [2; 1; 2; 1]%Z [1; 3; 0; 2]
  ∧ [1; 3; 0; 2] = sort_indices Z.ltb [2; 1; 2; 1]%Z.
Proof.
  assert (Hbij : bijection 4 [1; 3; 0; 2]) by (by apply (bool_decide_unpack _)).
  assert (Hsorted : nondecreasing_through Z.ltb [2; 1; 2; 1]%Z [1; 3; 0; 2]).
  { intros [|[|[|[|p]]]] [|[|[|[|q]]]] i j Hpq Hp Hq; simplify_eq/=;
      try lia; by eexists _, _. }
  split_and!; [apply strict_weak_order_Zlt|exact Hbij|exact Hsorted|].
  apply (X7_sort_indices_is_determined Z.ltb [2; 1; 2; 1]%Z [1; 3; 0; 2]
           strict_weak_order_Zlt Hbij Hsorted).
  intros [|[|[|[|a]]]] [|[|[|[|b]]]] x y Hab Hx Hy Hxy Hyx; simplify_eq/=;
    try lia.
  - exists 2, 3. split_and!; [lia|reflexivity..].
  - exists 0, 1. split_and!; [lia|reflexivity..].
Defined.

(** X8: [reorder] with the result of [sort_indices] sorts a second vector
    in the same way as the keys.  For [v] as long as [keys], reordering
    both by [sort_indices(keys)] keeps every element of [v] beside its key
    and leaves the keys in non-decreasing order. *)
Theorem X8_reorder_by_sort_indices_keeps_pairs {K T} (ltb : K → K → bool)
    fuel (keys : list K) (v : list T) :
  strict_weak_order ltb → length v = length keys → length keys ≤ fuel →
  ∃ keys' v',
    reorder fuel keys (sort_indices ltb keys)
      = Done (keys', sort_indices ltb keys)
    ∧ reorder fuel v (sort_indices ltb keys)
      = Done (v', sort_indices ltb keys)
    ∧ zip keys' v' ≡ₚ zip keys v
    ∧ ∀ p q x y, p < q → keys' !! p = Some x → keys' !! q = Some y →
        leb_of ltb x y = true.
Proof.
  intros Hswo Hlen Hfuel.
  pose proof (sort_indices_bijection ltb keys) as Hbij.
  destruct (reorder_by_sort_indices_sorts ltb fuel keys Hswo Hfuel)
    as (keys' & Hrunk & _ & Hsorted).
  destruct (reorder_gathers fuel keys _ Hbij Hfuel)
    as (keys'' & Hrunk' & Hlenk & Hgk).
  assert (keys'' = keys') as -> by congruence.
  rewrite <- Hlen in Hbij, Hfuel.
  destruct (reorder_gathers fuel v _ Hbij Hfuel) as (v' & Hrunv & Hlenv & Hgv).
  exists keys', v'. split_and!; [done..| |done].
  apply (gather_Permutation _ _ (sort_indices ltb keys)).
  - by rewrite length_zip, Hlen, Nat.min_id, <- Hlen.
  - rewrite !length_zip. lia.
  - intros i j Hij. rewrite !lookup_zip_with.
    by rewrite (Hgk i j Hij), (Hgv i j Hij).
Qed.

Lemma X8_witness :
  strict_weak_order Z.ltb
  ∧ ∃ keys' v',
      reorder 4 [2; 1; 2; 1]%Z (sort_indices Z.ltb [2; 1; 2; 1]%Z)
        = Done (keys', sort_indices Z.ltb [2; 1; 2; 1]%Z)
      ∧ reorder 4 [10; 11; 12; 13] (sort_indices Z.ltb [2; 1; 2; 1]%Z)
        = Done (v', sort_indices Z.ltb [2; 1; 2; 1]%Z)
      ∧ zip keys' v' ≡ₚ zip [2; 1; 2; 1]%Z [10; 11; 12; 13]
      ∧ ∀ p q x y, p < q → keys' !! p = Some x → keys' !! q = Some y →
          leb_of Z.ltb x y = true.
Proof.
  split; [apply strict_weak_order_Zlt|].
  apply (X8_reorder_by_sort_indices_keeps_pairs Z.ltb 4 [2; 1; 2; 1]%Z
           [10; 11; 12; 13] strict_weak_order_Zlt).
  - reflexivity.
  - simpl. lia.
Defined.

(** *** [RemoveDuplicates] beyond first occurrences *)

Section RemoveDuplicates_more.
Context `{Countable T}.

Lemma remove_if_seen_app (seen : gset T) l1 l2 :
  (remove_if seen_before seen (l1 ++ l2)).1
  = (remove_if seen_before seen l1).1
    ++ (remove_if seen_before (remove_if seen_before seen l1).2 l2).1.
Proof.
  revert seen. induction l1 as [|x l1 IH]; intros seen; [done|].
  simpl. destruct (seen_before seen x) as [b st1].
  specialize (IH st1).
  destruct (remove_if seen_before st1 (l1 ++ l2)) as [r st2].
  destruct (remove_if seen_before st1 l1) as [r1 st3].
  simpl in *. rewrite IH. by destruct b.
Qed.

Lemma remove_if_seen_state (seen : gset T) l x :
  x ∈ (remove_if seen_before seen l).2 ↔ x ∈ seen ∨ x ∈ l.
Proof.
  revert seen. induction l as [|y l IH]; intros seen; simpl.
  { split; [by left|]. intros [?|?%elem_of_nil]; done. }
  unfold seen_before at 1. case_decide.
  - specialize (IH seen). destruct (remove_if seen_before seen l).
    simpl in *. rewrite IH, elem_of_cons. naive_solver.
  - specialize (IH ({[y]} ∪ seen)).
    destruct (remove_if seen_before ({[y]} ∪ seen) l).
    simpl in *. rewrite IH, elem_of_cons, elem_of_union, elem_of_singleton.
    naive_solver.
Qed.

Lemma remove_if_seen_filter (s s1 s2 : gset T) l :
  (∀ x, x ∈ s ↔ x ∈ s1 ∨ x ∈ s2) →
  (remove_if seen_before s l).1
  = filter (λ x, x ∉ s2) (remove_if seen_before s1 l).1.
Proof.
  revert s s1. induction l as [|x l IH]; intros s s1 Hs; [done|].
  simpl. unfold seen_before at 1 3.
  destruct (decide (x ∈ s1)) as [Hx1|Hx1].
  - rewrite decide_True by (apply Hs; by left).
    specialize (IH s s1 Hs).
    by destruct (remove_if seen_before s l), (remove_if seen_before s1 l).
  - destruct (decide (x ∈ s)) as [Hx|Hx].
    + specialize (IH s ({[x]} ∪ s1)).
      destruct (remove_if seen_before s l),
        (remove_if seen_before ({[x]} ∪ s1) l). simpl in *.
      rewrite filter_cons_False by (apply Hs in Hx; naive_solver).
      apply IH. intros y.
      rewrite elem_of_union, elem_of_singleton, Hs. naive_solver.
    + specialize (IH ({[x]} ∪ s) ({[x]} ∪ s1)).
      destruct (remove_if seen_before ({[x]} ∪ s) l),
        (remove_if seen_before ({[x]} ∪ s1) l). simpl in *.
      rewrite filter_cons_True by (rewrite Hs in Hx; naive_solver).
      f_equal. apply IH. intros y.
      rewrite !elem_of_union, !elem_of_singleton, Hs. naive_solver.
Qed.

(** X9: the value [RemoveDuplicates] returns is the number of different
    values in [v]; it is never more than the length [v] had. *)
Theorem X9_RemoveDuplicates_counts_distinct_values (v : list T) :
  (RemoveDuplicates v).2 = size (list_to_set v : gset T)
  ∧ (RemoveDuplicates v).2 ≤ length v.
Proof.
  unfold RemoveDuplicates. simpl. split.
  - rewrite <- (size_list_to_set (C:=gset T)) by apply remove_if_seen_NoDup.
    f_equal. apply set_eq. intros x.
    rewrite !elem_of_list_to_set, remove_if_seen_elem_of.
    split; [by intros [? _]|]. intros Hx. split; [done|].
    apply not_elem_of_empty.
  - apply sublist_length, remove_if_seen_sublist.
Qed.

(** X10: [RemoveDuplicates] on a concatenation.  Removing the duplicates of
    [l1 ++ l2] gives the result for [l1] followed by the result for [l2]
    without the values that occur in [l1]. *)
Theorem X10_RemoveDuplicates_of_concatenation (l1 l2 : list T) :
  (RemoveDuplicates (l1 ++ l2)).1
  = (RemoveDuplicates l1).1
    ++ filter (λ x, x ∉ l1) (RemoveDuplicates l2).1.
Proof.
  unfold RemoveDuplicates. simpl. rewrite remove_if_seen_app. f_equal.
  rewrite (remove_if_seen_filter _ ∅ (remove_if seen_before ∅ l1).2).
  - apply list_filter_iff. intros x.
    rewrite remove_if_seen_state, elem_of_empty. naive_solver.
  - intros x. rewrite elem_of_empty. naive_solver.
Qed.
End RemoveDuplicates_more.

Example RemoveDuplicates_of_concatenation_example :
  (RemoveDuplicates ([1; 2; 1] ++ [3; 2; 3; 4])).1 = [1; 2] ++ [3; 4].
Proof. by vm_compute. Qed.

(** *** [remove_intersection] as the code counts *)

Lemma filter_ext_in {A} (P Q : A → Prop) `{!∀ x, Decision (P x)}
    `{!∀ x, Decision (Q x)} (l : list A) :
  (∀ x, x ∈ l → P x ↔ Q x) → filter P l = filter Q l.
Proof.
  induction l as [|x l IH]; intros Hext; [done|].
  rewrite !filter_cons, IH by (intros y Hy; apply Hext; by right).
  destruct (decide (P x)) as [HP|HP].
  - rewrite decide_True; [done|]. apply Hext; [by left|done].
  - rewrite decide_False; [done|]. intros HQ. apply HP, Hext; [by left|done].
Qed.

Lemma filter_all {A} (P : A → Prop) `{!∀ x, Decision (P x)} (l : list A) :
  (∀ x, x ∈ l → P x) → filter P l = l.
Proof.
  induction l as [|x l IH]; intros Hall; [done|].
  rewrite filter_cons_True by (apply Hall; by left).
  f_equal. apply IH. intros y Hy. apply Hall. by right.
Qed.

Lemma NoDup_multiplicity_le (l : list Z) z :
  NoDup l → multiplicity z (list_to_set_disj l) ≤ 1.
Proof.
  induction 1 as [|y l Hy _ IH];
    [rewrite list_to_set_disj_nil, multiplicity_empty; lia|].
  rewrite list_to_set_disj_cons, multiplicity_disj_union.
  rewrite multiplicity_singleton. case_decide; [subst|lia].
  assert (multiplicity y (list_to_set_disj l) = 0); [|lia].
  destruct (decide (0 < multiplicity y (list_to_set_disj l))) as [Hpos|]; [|lia].
  by apply elem_of_multiplicity, elem_of_list_to_set_disj in Hpos.
Qed.

Section remove_intersection_more.
Context {T : Type} (to_int : T → Z).

Lemma in_both_false st k :
  in_both to_int st k = false ↔ multiplicity (to_int k) st ≤ 1.
Proof. unfold in_both. rewrite bool_decide_eq_false. lia. Qed.

Lemma keep_once_NoDup (st : gmultiset Z) a :
  (∀ z, multiplicity z (list_to_set_disj (to_int <$> a)) ≤ multiplicity z st) →
  NoDup (to_int <$> filter (λ k, in_both to_int st k = false) a).
Proof.
  induction a as [|x a IH]; intros Hle; [constructor|].
  assert (Hle' : ∀ z, multiplicity z (list_to_set_disj (to_int <$> a))
                      ≤ multiplicity z st).
  { intros z. specialize (Hle z).
    rewrite fmap_cons, list_to_set_disj_cons, multiplicity_disj_union in Hle.
    lia. }
  rewrite filter_cons. case_decide as Hx; [|by apply IH].
  rewrite fmap_cons. apply NoDup_cons. split; [|by apply IH].
  intros (y & Hxy & [_ Hy]%list_elem_of_filter)%list_elem_of_fmap.
  apply in_both_false in Hx. specialize (Hle (to_int x)).
  rewrite fmap_cons, list_to_set_disj_cons, multiplicity_disj_union,
    multiplicity_singleton_eq in Hle.
  assert (0 < multiplicity (to_int x) (list_to_set_disj (to_int <$> a))).
  { apply elem_of_multiplicity, elem_of_list_to_set_disj.
    rewrite Hxy. by apply list_elem_of_fmap_2. }
  lia.
Qed.

Lemma remove_intersection_single_values (a b : list T) :
  NoDup (to_int <$> (remove_intersection to_int a b).1)
  ∧ (∀ x, x ∈ (remove_intersection to_int a b).1 →
       to_int x ∉ to_int <$> b).
Proof.
  split.
  - apply keep_once_NoDup. intros z. unfold insert_range.
    rewrite !multiplicity_disj_union. lia.
  - intros x [Hkeep Hx]%list_elem_of_filter Hb.
    apply in_both_false in Hkeep. unfold insert_range in Hkeep.
    rewrite !multiplicity_disj_union, multiplicity_empty in Hkeep.
    assert (0 < multiplicity (to_int x) (list_to_set_disj (to_int <$> a))).
    { apply elem_of_multiplicity, elem_of_list_to_set_disj.
      by apply list_elem_of_fmap_2. }
    assert (0 < multiplicity (to_int x) (list_to_set_disj (to_int <$> b))).
    { by apply elem_of_multiplicity, elem_of_list_to_set_disj. }
    lia.
Qed.

Lemma remove_intersection_exact (a b : list T) :
  remove_intersection to_int a b
  = (filter (λ x, length (filter (λ y, y = to_int x) (to_int <$> a)) = 1
                  ∧ to_int x ∉ to_int <$> b) a, b).
Proof.
  unfold remove_intersection. cbv zeta. f_equal.
  apply filter_ext_in. intros x Hx.
  rewrite in_both_false. unfold insert_range.
  rewrite !multiplicity_disj_union, multiplicity_empty.
  pose proof (multiplicity_list_to_set_disj (to_int x) (to_int <$> a))
    as Hcount.
  assert (0 < multiplicity (to_int x) (list_to_set_disj (to_int <$> a))).
  { apply elem_of_multiplicity, elem_of_list_to_set_disj.
    by apply list_elem_of_fmap_2. }
  rewrite <- (elem_of_list_to_set_disj (to_int x) (to_int <$> b)).
  rewrite elem_of_multiplicity, <- Hcount. lia.
Qed.

(** X11: [remove_intersection] leaves in [a] exactly the elements whose
    value occurs once in [a] and not in [b], in their order (values compared
    as the [int] they convert to), and leaves [b] as it was: every element
    whose value is repeated within [a] is removed, with all its copies, as
    is every element whose value occurs in [b].  So the result holds no
    value twice and no value of [b]. *)
Theorem X11_remove_intersection_leaves_single_values (a b : list T) :
  (remove_intersection to_int a b).1
  = filter (λ x, length (filter (λ y, y = to_int x) (to_int <$> a)) = 1
                 ∧ to_int x ∉ to_int <$> b) a
  ∧ NoDup (to_int <$> (remove_intersection to_int a b).1)
  ∧ (∀ x, x ∈ (remove_intersection to_int a b).1 →
       to_int x ∉ to_int <$> b)
  ∧ (remove_intersection to_int a b).1 `sublist_of` a
  ∧ (remove_intersection to_int a b).2 = b.
Proof.
  destruct (remove_intersection_single_values a b) as [Hnd Hb].
  split_and!; [|done|done|apply sublist_filter|done].
  by rewrite remove_intersection_exact.
Qed.

Lemma remove_intersection_of_NoDup (a b : list T) :
  NoDup (to_int <$> a) →
  remove_intersection to_int a b
  = (filter (λ x, to_int x ∉ to_int <$> b) a, b).
Proof.
  intros Hnd. unfold remove_intersection. cbv zeta. f_equal.
  apply filter_ext_in. intros x Hx.
  rewrite in_both_false. unfold insert_range.
  rewrite !multiplicity_disj_union, multiplicity_empty.
  pose proof (NoDup_multiplicity_le _ (to_int x) Hnd).
  assert (0 < multiplicity (to_int x) (list_to_set_disj (to_int <$> a))).
  { apply elem_of_multiplicity, elem_of_list_to_set_disj.
    by apply list_elem_of_fmap_2. }
  rewrite <- (elem_of_list_to_set_disj (to_int x) (to_int <$> b)).
  rewrite elem_of_multiplicity. lia.
Qed.

(** X12: when the [int] values that the elements of [a] convert to are
    pairwise different, [remove_intersection] removes from [a] exactly the
    elements whose [int] value is the [int] value of an element of [b],
    keeps the others in order and leaves [b] as it was.  For [T = int] this
    is what the source comment says, on an [a] without repeated values. *)
Theorem X12_remove_intersection_without_repeats (a b : list T) :
  NoDup (to_int <$> a) →
  remove_intersection to_int a b
  = (filter (λ x, to_int x ∉ to_int <$> b) a, b).
Proof. apply remove_intersection_of_NoDup. Qed.

(** X13: a second call of [remove_intersection] with the same [b] removes
    nothing more. *)
Theorem X13_remove_intersection_twice (a b : list T) :
  remove_intersection to_int (remove_intersection to_int a b).1 b
  = remove_intersection to_int a b.
Proof.
  destruct (remove_intersection_single_values a b) as [Hnd Hb].
  rewrite (remove_intersection_of_NoDup _ b Hnd).
  by rewrite filter_all.
Qed.
End remove_intersection_more.

Lemma X12_witness :
  NoDup (id <$> [1; 2; 3; 4]%Z)
  ∧ remove_intersection id [1; 2; 3; 4]%Z [2; 4; 4; 5]%Z
    = (filter (λ x, id x ∉ id <$> [2; 4; 4; 5]%Z) [1; 2; 3; 4]%Z,
       [2; 4; 4; 5]%Z).
Proof.
  assert (Hnd : NoDup (id <$> [1; 2; 3; 4]%Z))
    by (by apply (bool_decide_unpack _)).
  split; [exact Hnd|].
  apply (X12_remove_intersection_without_repeats id [1; 2; 3; 4]%Z
           [2; 4; 4; 5]%Z Hnd).
Defined.

Example remove_intersection_without_repeats_example :
  remove_intersection id [1; 2; 3; 4]%Z [2; 4; 4; 5]%Z
  = ([1; 3]%Z, [2; 4; 4; 5]%Z).
Proof. by vm_compute. Qed.

(** *** What the applicators do not look at *)

Lemma load_app {A} (l rest : list A) i x :
  load l i = Done x → load (l ++ rest) i = Done x.
Proof. intros Hx%load_Done. by apply load_Some, lookup_app_l_Some. Qed.

Lemma store_app {A} (l l' rest : list A) i x :
  store l i x = Done l' → store (l ++ rest) i x = Done (l' ++ rest).
Proof.
  intros [Hi ->]%store_Done. rewrite store_lt by (rewrite length_app; lia).
  by rewrite insert_app_l.
Qed.

Lemma for_each_Done_mono {S} (body1 body2 : S → nat → outcome S) st st' idxs :
  (∀ s i s', body1 s i = Done s' → body2 s i = Done s') →
  for_each body1 st idxs = Done st' → for_each body2 st idxs = Done st'.
Proof.
  intros Hbody. revert st. induction idxs as [|i idxs IH]; intros st; [done|].
  simpl. intros (st1 & Hst1 & Hrest)%bind_Done.
  rewrite (Hbody _ _ _ Hst1). simpl. by apply IH.
Qed.

Section reorder_longer_order.
Context {T : Type}.
Variables (order extra : list nat).

Lemma reorder_cycle_longer_order fuel i (v : list T) done prev_j j r :
  reorder_cycle fuel order i v done prev_j j = Done r →
  reorder_cycle fuel (order ++ extra) i v done prev_j j = Done r.
Proof.
  revert v done prev_j j. induction fuel as [|fuel IH];
    intros v done prev_j j Hrun; [discriminate|].
  simpl in *. case_decide; [done|].
  apply bind_Done in Hrun as (v1 & -> & Hrun). simpl.
  apply bind_Done in Hrun as (done1 & -> & Hrun). simpl.
  apply bind_Done in Hrun as (j1 & Hj1 & Hrun).
  rewrite (load_app _ _ _ _ Hj1). simpl. by apply IH.
Qed.

Lemma reorder_body_longer_order fuel st i st' :
  reorder_body (T:=T) fuel order st i = Done st' →
  reorder_body fuel (order ++ extra) st i = Done st'.
Proof.
  destruct st as [v done]. unfold reorder_body.
  intros (b & -> & Hrun)%bind_Done. simpl. destruct b; [done|].
  apply bind_Done in Hrun as (done1 & -> & Hrun). simpl.
  apply bind_Done in Hrun as (j & Hj & Hrun).
  rewrite (load_app _ _ _ _ Hj). simpl.
  by apply reorder_cycle_longer_order.
Qed.
End reorder_longer_order.

(** X14: [reorder] looks only at the first [v.size()] entries of [order].
    When these are a permutation of [[0, v.size())], the call returns and
    gathers through them, however many entries follow; [order] is not
    checked against the length of [v]. *)
Theorem X14_reorder_reads_a_prefix_of_order {T} fuel (v : list T) order :
  bijection (length v) (take (length v) order) → length v ≤ fuel →
  ∃ v', reorder fuel v order = Done (v', order)
    ∧ length v' = length v
    ∧ ∀ i j, i < length v → order !! i = Some j → v' !! i = v !! j.
Proof.
  intros Hbij Hfuel.
  destruct (reorder_gathers fuel v _ Hbij Hfuel) as (v' & Hrun & Hlen & Hg).
  exists v'. split_and!; [|done|].
  - unfold reorder in *.
    apply bind_Done in Hrun as ([v1 done1] & Hloop & Hret).
    rewrite <- (take_drop (length v) order) at 1.
    rewrite (for_each_Done_mono _ _ _ _ _
               (reorder_body_longer_order _ (drop (length v) order) fuel)
               Hloop).
    simpl in *. by simplify_eq.
  - intros i j Hi Hij. apply Hg. by rewrite lookup_take_lt.
Qed.

Lemma X14_witness :
  bijection 3 (take 3 [1; 2; 0; 7; 7])
  ∧ ∃ v', reorder 3 [10; 20; 30] [1; 2; 0; 7; 7] = Done (v', [1; 2; 0; 7; 7])
      ∧ length v' = 3
      ∧ ∀ i j, i < 3 → [1; 2; 0; 7; 7] !! i = Some j →
          v' !! i = [10; 20; 30] !! j.
Proof.
  assert (Hb : bijection 3 (take 3 [1; 2; 0; 7; 7]))
    by (by apply (bool_decide_unpack _)).
  split; [exact Hb|].
  apply (X14_reorder_reads_a_prefix_of_order 3 [10; 20; 30] [1; 2; 0; 7; 7] Hb).
  simpl. lia.
Defined.

Section destructive_longer_values.
Context {T : Type}.
Variables (neg1 : Z) (rest : list T).

Lemma zload_app {A} (l more : list A) d x :
  zload l d = Done x → zload (l ++ more) d = Done x.
Proof. unfold zload. case_decide; [apply load_app|done]. Qed.

Lemma zstore_app {A} (l l' more : list A) d x :
  zstore l d x = Done l' → zstore (l ++ more) d x = Done (l' ++ more).
Proof. unfold zstore. case_decide; [apply store_app|done]. Qed.

Lemma destructive_cycle_longer_values fuel s order (v : list T) remaining
    temp d order' v' remaining' temp' :
  destructive_cycle neg1 fuel s order v remaining temp d
    = Done (order', v', remaining', temp') →
  destructive_cycle neg1 fuel s order (v ++ rest) remaining temp d
    = Done (order', v' ++ rest, remaining', temp').
Proof.
  revert order v remaining temp d. induction fuel as [|fuel IH];
    intros order v remaining temp d Hrun; [discriminate|].
  simpl in *. case_decide; [by simplify_eq|].
  apply bind_Done in Hrun as (x & Hx & Hrun).
  rewrite (zload_app _ _ _ _ Hx). simpl.
  apply bind_Done in Hrun as (v1 & Hv1 & Hrun).
  rewrite (zstore_app _ _ _ _ _ Hv1). simpl.
  apply bind_Done in Hrun as (d2 & -> & Hrun). simpl.
  apply bind_Done in Hrun as (order1 & -> & Hrun). simpl.
  by apply IH.
Qed.

Lemma destructive_scan_longer_values fuel cfuel s order (v : list T)
    remaining order' v' :
  destructive_scan neg1 fuel cfuel s order v remaining = Done (order', v') →
  destructive_scan neg1 fuel cfuel s order (v ++ rest) remaining
    = Done (order', v' ++ rest).
Proof.
  revert s order v remaining. induction fuel as [|fuel IH];
    intros s order v remaining Hrun; [discriminate|].
  simpl in *. case_decide; [|by simplify_eq].
  apply bind_Done in Hrun as (d & -> & Hrun). simpl.
  case_decide; [by apply IH|].
  apply bind_Done in Hrun as (temp & Htemp & Hrun).
  rewrite (load_app _ _ _ _ Htemp). simpl.
  apply bind_Done in Hrun as ([[[order1 v1] remaining1] temp1] & Hcycle & Hrun).
  rewrite (destructive_cycle_longer_values _ _ _ _ _ _ _ _ _ _ _ Hcycle).
  simpl in *.
  apply bind_Done in Hrun as (v2 & Hv2 & Hrun).
  rewrite (store_app _ _ _ _ _ Hv2). simpl. by apply IH.
Qed.
End destructive_longer_values.

(** X15: [reorder_destructive] touches only the positions of [v] that its
    order buffer names.  A call that returns on [v] returns on every longer
    buffer [v ++ rest] with the same result on [v] and [rest] untouched:
    the function reorders a prefix of a longer buffer. *)
Theorem X15_reorder_destructive_leaves_the_rest {T} neg1 fuel order
    (v rest : list T) order' v' :
  reorder_destructive neg1 fuel order v = Done (order', v') →
  reorder_destructive neg1 fuel order (v ++ rest)
  = Done (order', v' ++ rest).
Proof. apply destructive_scan_longer_values. Qed.

Lemma X15_witness :
  reorder_destructive (-1) 5 [2; 0; 3; 1]%Z [1; 2; 3; 4]
  = Done ([2; -1; -1; -1]%Z, [2; 4; 1; 3])
  ∧ reorder_destructive (-1) 5 [2; 0; 3; 1]%Z ([1; 2; 3; 4] ++ [8; 9])
    = Done ([2; -1; -1; -1]%Z, [2; 4; 1; 3] ++ [8; 9]).
Proof.
  assert (Hrun : reorder_destructive (-1) 5 [2; 0; 3; 1]%Z [1; 2; 3; 4]
                 = Done ([2; -1; -1; -1]%Z, [2; 4; 1; 3])) by reflexivity.
  split; [exact Hrun|].
  apply (X15_reorder_destructive_leaves_the_rest (-1) 5 [2; 0; 3; 1]%Z
           [1; 2; 3; 4] [8; 9] _ _ Hrun).
Defined.

(** *** The two filters together *)

Section filters_together.
Context `{Countable T} (to_int : T → Z).

(** X16: [RemoveDuplicates] after [remove_intersection] finds nothing to
    remove: what [remove_intersection] leaves in [a] has no repeated
    element, and the returned length is the length of [a]. *)
Theorem X16_RemoveDuplicates_after_remove_intersection (a b : list T) :
  RemoveDuplicates (remove_intersection to_int a b).1
  = ((remove_intersection to_int a b).1,
     length (remove_intersection to_int a b).1).
Proof.
  destruct (remove_intersection_single_values to_int a b) as [Hnd _].
  apply NoDup_fmap_1 in Hnd. unfold RemoveDuplicates.
  rewrite remove_if_seen_fresh; [done..|].
  intros x _. apply not_elem_of_empty.
Qed.

(** X17: [remove_intersection] after [RemoveDuplicates] is the difference
    of [a] and [b].  When the conversion to [int] loses nothing (as for
    [T = int]), removing the duplicates of [a] first makes
    [remove_intersection] remove exactly the elements that occur in [b]. *)
Theorem X17_remove_intersection_after_RemoveDuplicates (a b : list T) :
  Inj (=) (=) to_int →
  remove_intersection to_int (RemoveDuplicates a).1 b
  = (filter (λ x, x ∉ b) (RemoveDuplicates a).1, b).
Proof.
  intros Hinj.
  rewrite remove_intersection_of_NoDup
    by apply (NoDup_fmap_2 _), remove_if_seen_NoDup.
  f_equal. apply list_filter_iff. intros x.
  rewrite list_elem_of_fmap. split.
  - intros Hnot Hx. apply Hnot. by exists x.
  - intros Hnot (y & Hxy%(inj to_int) & Hy). by subst.
Qed.
End filters_together.

Lemma X17_witness :
  Inj (=) (=) (@id Z)
  ∧ remove_intersection id (RemoveDuplicates [1; 2; 2; 3]%Z).1 [3; 4]%Z
    = (filter (λ x, x ∉ [3; 4]%Z) (RemoveDuplicates [1; 2; 2; 3]%Z).1,
       [3; 4]%Z).
Proof.
  assert (Hinj : Inj (=) (=) (@id Z)) by (intros x y Hxy; exact Hxy).
  split; [exact Hinj|].
  apply (X17_remove_intersection_after_RemoveDuplicates id [1; 2; 2; 3]%Z
           [3; 4]%Z Hinj).
Defined.

Example filters_together_example :
  remove_intersection id (RemoveDuplicates [1; 2; 2; 3]%Z).1 [3; 4]%Z
  = ([1; 2]%Z, [3; 4]%Z).
Proof. by vm_compute. Qed.
